(** * Lesson attendance overlap ([task3/solution.py])

    A shallow embedding of the four functions of [task3/solution.py]
    ([_parse_timestamps_to_intervals], [_clip_intervals_to_lesson],
    [_calculate_overlap_duration] and [appearance]) together with the
    properties the specification states about them, and of the store of
    collected names of [task2/solution.py] ([AnimalDataStore]).

    Python integers are unbounded, so timestamps are [Z].  A Python list is a
    [list], a tuple [(start, end)] a pair, and the input dictionary a
    [gmap string (list Z)].  The only operation of the source that can raise is
    list subscripting ([IndexError]); it is modelled in a small error monad so
    that "never raises" is a theorem and not an artefact of the embedding. *)

From Stdlib Require Import ZArith List Lia Bool Sorted.
From stdpp Require Import gmap strings list list_numbers fin_maps.

Local Open Scope Z_scope.
Local Set Warnings "-clear-no-such-hyp".

(** ** Python runtime: exceptions, subscripting, [range], [for] *)

Module Py.

Inductive exn : Type :=
| IndexError.

Inductive result (A : Type) : Type :=
| Ok (a : A)
| Raise (e : exn).
Global Arguments Ok {A} a.
Global Arguments Raise {A} e.

Global Instance result_ret : MRet result := fun A a => Ok a.
Global Instance result_bind : MBind result := fun A B f m =>
  match m with
  | Ok a => f a
  | Raise e => Raise e
  end.

(** [l[i]] for a non-negative index [i]. *)
Definition getitem {A : Type} (l : list A) (i : nat) : result A :=
  match l !! i with
  | Some x => Ok x
  | None => Raise IndexError
  end.

(** [range(start, stop, step)] for a positive [step]. *)
Definition range (start stop step : nat) : list nat :=
  map (fun k => start + k * step)%nat
      (seq 0 ((stop - start + (step - 1)) / step)%nat).

(** [for x in xs: body], the loop state threaded through the body. *)
Fixpoint for_each {A S : Type} (xs : list A) (body : S -> A -> result S)
                  (s : S) : result S :=
  match xs with
  | [] => Ok s
  | x :: xs' => s' ← body s x; for_each xs' body s'
  end.

(** [not l] on a list. *)
Definition is_empty {A : Type} (l : list A) : bool :=
  match l with
  | [] => true
  | _ :: _ => false
  end.

(** [l.sort(key=key)]: Python's sort is stable, and a stable sort has one
    possible result; insertion from the right computes it. *)
Section Sort.
Context {A : Type} (key : A -> Z).

Fixpoint insert_by (x : A) (l : list A) : list A :=
  match l with
  | [] => [x]
  | y :: l' => if key x <=? key y then x :: y :: l' else y :: insert_by x l'
  end.

Fixpoint sort_by (l : list A) : list A :=
  match l with
  | [] => []
  | x :: l' => insert_by x (sort_by l')
  end.
End Sort.

End Py.

Import Py.

(** ** The program *)

(** An interval is a tuple [(start, end)]. *)
Abbreviation Interval := (Z * Z)%type.

Definition _parse_timestamps_to_intervals (timestamps : list Z)
  : result (list Interval) :=
  for_each (range 0 (length timestamps) 2)
    (fun intervals i =>
       if (i + 1 <? length timestamps)%nat then
         start ← getitem timestamps i;
         end_ ← getitem timestamps (i + 1);
         if start <? end_
         then mret (intervals ++ [(start, end_)])
         else mret intervals
       else mret intervals)
    [].

Definition _clip_intervals_to_lesson (intervals : list Interval)
    (lesson_start lesson_end : Z) : list Interval :=
  fold_left
    (fun clipped_intervals '(start, end_) =>
       let effective_start := Z.max start lesson_start in
       let effective_end := Z.min end_ lesson_end in
       if effective_start <? effective_end
       then clipped_intervals ++ [(effective_start, effective_end)]
       else clipped_intervals)
    intervals [].

(** The nested loop of [_calculate_overlap_duration] that collects the
    pairwise intersections. *)
Definition common_segments_of (intervals1 intervals2 : list Interval)
  : list Interval :=
  fold_left
    (fun common_segments '(r1_start, r1_end) =>
       fold_left
         (fun common_segments '(r2_start, r2_end) =>
            let overlap_start := Z.max r1_start r2_start in
            let overlap_end := Z.min r1_end r2_end in
            if overlap_start <? overlap_end
            then common_segments ++ [(overlap_start, overlap_end)]
            else common_segments)
         intervals2 common_segments)
    intervals1 [].

(** One iteration of the merge loop; the state is
    [(merged_segments, current_merged_start, current_merged_end)]. *)
Definition merge_step (common_segments : list Interval)
    (st : list Interval * Z * Z) (i : nat) : result (list Interval * Z * Z) :=
  let '(merged_segments, current_merged_start, current_merged_end) := st in
  '(next_start, next_end) ← getitem common_segments i;
  if next_start <? current_merged_end
  then mret (merged_segments, current_merged_start,
             Z.max current_merged_end next_end)
  else mret (merged_segments ++ [(current_merged_start, current_merged_end)],
             next_start, next_end).

Definition total_duration_of (merged_segments : list Interval) : Z :=
  fold_left (fun total_duration '(start, end_) => total_duration + (end_ - start))
            merged_segments 0.

Definition _calculate_overlap_duration (intervals1 intervals2 : list Interval)
  : result Z :=
  let common_segments := common_segments_of intervals1 intervals2 in
  if is_empty common_segments then mret 0 else
  let common_segments := sort_by fst common_segments in
  '(current_merged_start, current_merged_end) ← getitem common_segments 0;
  '(merged_segments, current_merged_start, current_merged_end) ←
    for_each (range 1 (length common_segments) 1)
             (merge_step common_segments)
             ([], current_merged_start, current_merged_end);
  let merged_segments :=
    merged_segments ++ [(current_merged_start, current_merged_end)] in
  mret (total_duration_of merged_segments).

Definition appearance (intervals_data : gmap string (list Z)) : result Z :=
  let lesson_times := default [] (intervals_data !! "lesson"%string) in
  let pupil_times := default [] (intervals_data !! "pupil"%string) in
  let tutor_times := default [] (intervals_data !! "tutor"%string) in
  if is_empty lesson_times || (length lesson_times <? 2)%nat then mret 0 else
  lesson_start ← getitem lesson_times 0;
  lesson_end ← getitem lesson_times 1;
  if lesson_start >=? lesson_end then mret 0 else
  pupil_intervals_raw ← _parse_timestamps_to_intervals pupil_times;
  tutor_intervals_raw ← _parse_timestamps_to_intervals tutor_times;
  let pupil_effective_intervals :=
    _clip_intervals_to_lesson pupil_intervals_raw lesson_start lesson_end in
  let tutor_effective_intervals :=
    _clip_intervals_to_lesson tutor_intervals_raw lesson_start lesson_end in
  if is_empty pupil_effective_intervals || is_empty tutor_effective_intervals
  then mret 0
  else _calculate_overlap_duration pupil_effective_intervals
                                   tutor_effective_intervals.

(** ** The test inputs of [task3/test_solution.py] *)

Definition session (lesson pupil tutor : list Z) : gmap string (list Z) :=
  <["lesson"%string := lesson]>
    (<["pupil"%string := pupil]> (<["tutor"%string := tutor]> ∅)).

Definition provided_1 : gmap string (list Z) :=
  session [1594663200; 1594666800]
          [1594663340; 1594663389; 1594663390; 1594663395; 1594663396; 1594666472]
          [1594663290; 1594663430; 1594663443; 1594666473].

(** ** Specification-side definitions *)

(** The pairs [(t[2i], t[2i+1])] for [i = 0, 1, ...] with [t[2i] < t[2i+1]],
    in order of increasing [i]. *)
Definition ordered_pairs (t : list Z) : list Interval :=
  filter (fun p : Interval => p.1 < p.2)
         ((fun i => (nth (2 * i) t 0, nth (2 * i + 1) t 0)) <$>
            seq 0 (length t / 2)%nat).

(** Each interval moved inside [[L, U]], the collapsed ones removed. *)
Definition clip_map_filter (xs : list Interval) (L U : Z) : list Interval :=
  filter (fun p : Interval => p.1 < p.2)
         ((fun p : Interval => (Z.max p.1 L, Z.min p.2 U)) <$> xs).

(** A point [x] lies in the interval [(start, end)] when
    [start <= x < end]. *)
Definition in_interval (x : Z) (p : Interval) : Prop := p.1 <= x < p.2.

Global Instance in_interval_dec x p : Decision (in_interval x p) :=
  decide (p.1 <= x < p.2).

(** [x] lies in some interval of the list. *)
Definition covers (segs : list Interval) (x : Z) : Prop :=
  Exists (in_interval x) segs.

Global Instance covers_dec segs x : Decision (covers segs x) :=
  decide (Exists (in_interval x) segs).

(** [x] lies in the intersection of some interval of [A] with some interval
    of [B]. *)
Definition covered (A B : list Interval) (x : Z) : Prop :=
  Exists (fun a => Exists (fun b => in_interval x a /\ in_interval x b) B) A.

Global Instance covered_dec A B x : Decision (covered A B x) :=
  decide (Exists (fun a => Exists (fun b => in_interval x a /\ in_interval x b) B) A).

(** The number of points of [[lo, hi)] that satisfy [P]. *)
Definition count_in (P : Z -> Prop) `{forall x, Decision (P x)} (lo hi : Z) : nat :=
  length (filter P (seqZ lo (hi - lo))).

(** The least start and the greatest end of a list of intervals ([0] for
    the empty list): every point of every interval lies between them. *)
Definition hull_lo (A : list Interval) : Z :=
  match A with
  | [] => 0
  | a :: A' => fold_right (fun p m => Z.min p.1 m) a.1 A'
  end.

Definition hull_hi (A : list Interval) : Z :=
  match A with
  | [] => 0
  | a :: A' => fold_right (fun p m => Z.max p.2 m) a.2 A'
  end.

(** The set of points covered by at least one intersection of an interval of
    [A] with an interval of [B], listed in increasing order, and its size:
    the total duration of that set (the intervals have integer ends, so the
    length of a union of them is the number of integers in it). *)
Definition covered_points (A B : list Interval) : list Z :=
  filter (covered A B) (seqZ (hull_lo A) (hull_hi A - hull_lo A)).

Definition overlap_measure (A B : list Interval) : Z :=
  Z.of_nat (length (covered_points A B)).

(** ** Definitions used in the proofs *)

(** The body of the parser's loop, with the subscripts that the guard
    [i + 1 < len(timestamps)] makes safe read by [nth]. *)
Definition parse_step (t : list Z) (intervals : list Interval) (i : nat)
  : list Interval :=
  if (i + 1 <? length t)%nat && (nth i t 0 <? nth (i + 1) t 0)
  then intervals ++ [(nth i t 0, nth (i + 1) t 0)]
  else intervals.

(** What the clipper guarantees of each interval it returns. *)
Definition within_lesson (L U : Z) (p : Interval) : Prop :=
  L <= p.1 /\ p.2 <= U /\ p.1 < p.2.

(** The candidate intersection the nested loop computes for a pair. *)
Definition intersect (a b : Interval) : Interval :=
  (Z.max a.1 b.1, Z.min a.2 b.2).

(** The merge loop, run over the segments themselves instead of over their
    indices. *)
Definition merge_pure (st : list Interval * Z * Z) (p : Interval)
  : list Interval * Z * Z :=
  let '(merged_segments, current_merged_start, current_merged_end) := st in
  if p.1 <? current_merged_end
  then (merged_segments, current_merged_start, Z.max current_merged_end p.2)
  else (merged_segments ++ [(current_merged_start, current_merged_end)],
        p.1, p.2).

(** The sum the merge loop and the final summation arrive at, starting from
    the running segment [(s, e)]. *)
Fixpoint sweep_total (s e : Z) (rest : list Interval) : Z :=
  match rest with
  | [] => e - s
  | p :: rest' =>
      if p.1 <? e
      then sweep_total s (Z.max e p.2) rest'
      else (e - s) + sweep_total p.1 p.2 rest'
  end.

(** The sequence stored under a key, [[]] when the key is absent
    ([intervals_data.get(key, [])]). *)
Definition times_of (key : string) (intervals_data : gmap string (list Z))
  : list Z :=
  default [] (intervals_data !! key).

(** The presence intervals of a participant inside the lesson. *)
Definition effective_intervals (times : list Z) (lesson_start lesson_end : Z)
  : list Interval :=
  _clip_intervals_to_lesson (ordered_pairs times) lesson_start lesson_end.

(** The flat sequence [[s1, e1, s2, e2, ...]] of a list of intervals: the
    input format the parser's docstring describes. *)
Definition flatten_intervals (xs : list Interval) : list Z :=
  flat_map (fun p : Interval => [p.1; p.2]) xs.

(** Every timestamp of every sequence of the input moved by [k]. *)
Definition shift_data (k : Z) (intervals_data : gmap string (list Z))
  : gmap string (list Z) :=
  (fun times : list Z => Z.add k <$> times) <$> intervals_data.

(** ** [task2/solution.py]: the store of collected names

    A Python [str] is a list of characters, over any character type; the
    one library function the class calls on a character, [str.upper], is a
    parameter (it returns a string: upper-casing one character can give
    several).  A [Counter] is a finite map read with [0] for an absent key,
    a [set] a finite set.  The object is its three data fields; the logger
    and the debug message of [add_names] are left out. *)

Section DataStoreModel.
Context {char : Type} `{Countable char}.
Variable upper : char -> list char.

Record AnimalDataStore : Type := {
  _letter_counts : gmap (list char) Z;
  _alphabet_chars : gset (list char);
  _all_collected_names : gset (list char)
}.

(** [AnimalDataStore(alphabet_chars)]. *)
Definition AnimalDataStore_init (alphabet_chars : gset (list char))
  : AnimalDataStore :=
  {| _letter_counts := ∅;
     _alphabet_chars := alphabet_chars;
     _all_collected_names := ∅ |}.

(** One iteration of the loop of [add_names]; the state is the object and
    [newly_added_count]. *)
Definition add_names_step (st : AnimalDataStore * Z) (name : list char)
  : AnimalDataStore * Z :=
  let '(self, newly_added_count) := st in
  match name with
  | [] => st
  | c0 :: _ =>
      if decide (name ∈ _all_collected_names self) then st
      else
        let all_collected_names := {[name]} ∪ _all_collected_names self in
        let newly_added_count := newly_added_count + 1 in
        let first_char := upper c0 in
        let letter_counts :=
          if decide (first_char ∈ _alphabet_chars self)
          then <[first_char :=
                   default 0 (_letter_counts self !! first_char) + 1]>
                 (_letter_counts self)
          else _letter_counts self in
        ({| _letter_counts := letter_counts;
            _alphabet_chars := _alphabet_chars self;
            _all_collected_names := all_collected_names |},
         newly_added_count)
  end.

(** [self.add_names(names)]: the object after the call. *)
Definition add_names (self : AnimalDataStore) (names : list (list char))
  : AnimalDataStore :=
  (fold_left add_names_step names (self, 0)).1.

(** [self.get_counts_by_letter()]. *)
Definition get_counts_by_letter (self : AnimalDataStore)
  : gmap (list char) Z :=
  _letter_counts self.

(** [counts_data.get(letter, 0)], the way [write_report] and [run] read the
    counts. *)
Definition count_of (counts_data : gmap (list char) Z) (letter : list char)
  : Z :=
  default 0 (counts_data !! letter).

(** The upper-cased first character of a name, when the name has one. *)
Definition first_char_upper (name : list char) : option (list char) :=
  match name with
  | [] => None
  | c0 :: _ => Some (upper c0)
  end.

(** The collected names that are counted under [letter]. *)
Definition names_under (letter : list char) (names : gset (list char))
  : gset (list char) :=
  filter (fun name => first_char_upper name = Some letter) names.

(** The loop body on the object alone. *)
Definition add_name (self : AnimalDataStore) (name : list char)
  : AnimalDataStore :=
  (add_names_step (self, 0) name).1.

(** Every count is the number of collected names under its letter, and only
    letters of the alphabet are counted. *)
Definition counts_exact (self : AnimalDataStore) : Prop :=
  forall letter,
    count_of (_letter_counts self) letter
    = if decide (letter ∈ _alphabet_chars self)
      then Z.of_nat (size (names_under letter (_all_collected_names self)))
      else 0.

End DataStoreModel.

(** Upper-casing on ASCII code points, for running the store on examples. *)
Definition ascii_upper (c : nat) : list nat :=
  if (97 <=? c)%nat && (c <=? 122)%nat then [(c - 32)%nat] else [c].

(** ** Facts about the runtime *)

Section Runtime.
Context {A S : Type}.

Lemma for_each_pure (body : S -> A -> result S) (f : S -> A -> S) xs s :
  (forall s x, x ∈ xs -> body s x = Ok (f s x)) ->
  for_each xs body s = Ok (fold_left f xs s).
Proof.
  revert s. induction xs as [|x xs IH]; intros s Hbody; [reflexivity|].
  cbn [for_each fold_left]. rewrite Hbody by left. cbn.
  apply IH. intros s' y Hy. apply Hbody. by right.
Qed.

Lemma getitem_lt (d : A) (l : list A) i :
  (i < length l)%nat -> getitem l i = Ok (nth i l d).
Proof.
  intros Hi. unfold getitem.
  destruct (lookup_lt_is_Some_2 l i Hi) as [x Hx].
  rewrite Hx. f_equal. rewrite nth_lookup, Hx. reflexivity.
Qed.

Lemma getitem_middle (pre rest : list A) x :
  getitem (pre ++ x :: rest) (length pre) = Ok x.
Proof. unfold getitem. by rewrite list_lookup_middle. Qed.

Lemma range_from_1 n : range 1 n 1 = seq 1 (n - 1).
Proof.
  unfold range. rewrite Nat.sub_diag, Nat.add_0_r, Nat.div_1_r.
  rewrite <- (fmap_S_seq 0). apply map_ext. intros k. lia.
Qed.

End Runtime.

(** ** The cases of [task3/test_solution.py], run on the embedding *)

Example test_provided_2 :
  appearance
    (session [1594702800; 1594706400]
       [1594702789; 1594704500; 1594702807; 1594704542; 1594704512;
        1594704513; 1594704564; 1594705150; 1594704581; 1594704582;
        1594704734; 1594705009; 1594705095; 1594705096; 1594705106;
        1594706480; 1594705158; 1594705773; 1594705849; 1594706480;
        1594706500; 1594706875; 1594706502; 1594706503; 1594706524;
        1594706524; 1594706579; 1594706641]
       [1594700035; 1594700364; 1594702749; 1594705148; 1594705149;
        1594706463])
  = Ok 3577.
Proof. vm_compute. reflexivity. Qed.

Example test_provided_3 :
  appearance (session [1594692000; 1594695600] [1594692033; 1594696347]
                [1594692017; 1594692066; 1594692068; 1594696341])
  = Ok 3565.
Proof. vm_compute. reflexivity. Qed.

Example test_no_overlap :
  appearance (session [0; 100] [10; 20] [30; 40]) = Ok 0.
Proof. vm_compute. reflexivity. Qed.

Example test_empty_lesson :
  appearance (session [] [0; 100] [0; 100]) = Ok 0.
Proof. vm_compute. reflexivity. Qed.

Example test_full_overlap_within_clipped_lesson :
  appearance (session [10; 20] [0; 30] [5; 25]) = Ok 10.
Proof. vm_compute. reflexivity. Qed.

Example test_pupil_touching_intervals_overlap_tutor :
  appearance (session [0; 100] [10; 20; 20; 30; 40; 50] [15; 45]) = Ok 20.
Proof. vm_compute. reflexivity. Qed.

Example test_invalid_pupil_interval_ignored :
  appearance (session [0; 100] [10; 5; 20; 30] [0; 100]) = Ok 10.
Proof. vm_compute. reflexivity. Qed.

Example test_missing_keys : appearance ∅ = Ok 0.
Proof. vm_compute. reflexivity. Qed.

Example test_parse_invalid_skipped :
  _parse_timestamps_to_intervals [1; 2; 4; 3] = Ok [(1, 2)].
Proof. vm_compute. reflexivity. Qed.

Example test_parse_odd :
  _parse_timestamps_to_intervals [1; 2; 3] = Ok [(1, 2)].
Proof. vm_compute. reflexivity. Qed.

Example test_clip :
  _clip_intervals_to_lesson [(0, 10); (15, 25)] 5 20 = [(5, 10); (15, 20)].
Proof. vm_compute. reflexivity. Qed.

Example test_clip_touching :
  _clip_intervals_to_lesson [(0, 5); (20, 25)] 5 20 = [].
Proof. vm_compute. reflexivity. Qed.

Example test_overlap_two_segments :
  _calculate_overlap_duration [(10, 20); (30, 40)] [(15, 35)] = Ok 10.
Proof. vm_compute. reflexivity. Qed.

Example test_overlap_touching :
  _calculate_overlap_duration [(10, 30)] [(15, 20); (20, 25)] = Ok 10.
Proof. vm_compute. reflexivity. Qed.

Example test_overlap_merged :
  _calculate_overlap_duration [(10, 50)] [(20, 30); (25, 40)] = Ok 20.
Proof. vm_compute. reflexivity. Qed.

Example test_overlap_measure :
  overlap_measure [(10, 50)] [(20, 30); (25, 40)] = 20.
Proof. vm_compute. reflexivity. Qed.

(** ** The Interval Parser *)

Section Parser.

Lemma parse_as_fold t :
  _parse_timestamps_to_intervals t
  = Ok (fold_left (parse_step t) (range 0 (length t) 2) []).
Proof.
  unfold _parse_timestamps_to_intervals. apply for_each_pure.
  intros acc i _. unfold parse_step.
  destruct (Nat.ltb_spec (i + 1) (length t)) as [Hi|Hi]; cbn [andb]; [|done].
  rewrite (getitem_lt 0) by lia. rewrite (getitem_lt 0) by lia. cbn.
  by destruct (_ <? _).
Qed.

Lemma parse_fold_pairs t m acc :
  (2 * m <= length t)%nat ->
  fold_left (parse_step t) (map (fun k => 0 + k * 2)%nat (seq 0 m)) acc
  = acc ++ filter (fun p : Interval => p.1 < p.2)
             ((fun i => (nth (2 * i) t 0, nth (2 * i + 1) t 0)) <$> seq 0 m).
Proof.
  induction m as [|m IH]; intros Hm.
  - cbn. by rewrite app_nil_r.
  - rewrite seq_S, map_app, fold_left_app, fmap_app, filter_app, IH by lia.
    cbn [map fold_left fmap list_fmap Nat.add]. unfold parse_step.
    replace (m * 2)%nat with (2 * m)%nat by lia.
    destruct (Nat.ltb_spec (2 * m + 1) (length t)) as [_|?]; [|lia].
    cbn [andb]. rewrite app_assoc. f_equal.
    rewrite filter_cons, filter_nil. cbn [fst snd].
    destruct (Z.ltb_spec (nth (2 * m) t 0) (nth (2 * m + 1) t 0));
      case_decide; (done || lia || by rewrite app_nil_r).
Qed.

Lemma parse_ordered_pairs t :
  _parse_timestamps_to_intervals t = Ok (ordered_pairs t).
Proof.
  rewrite parse_as_fold. f_equal. unfold range, ordered_pairs.
  rewrite Nat.sub_0_r. change (2 - 1)%nat with 1%nat.
  set (n := length t).
  destruct (Nat.Even_or_Odd n) as [[k Hk]|[k Hk]].
  - replace ((n + 1) / 2)%nat with k by (apply Nat.div_unique with 1%nat; lia).
    replace (n / 2)%nat with k by (apply Nat.div_unique with 0%nat; lia).
    by rewrite parse_fold_pairs by (fold n; lia).
  - replace ((n + 1) / 2)%nat with (S k) by (apply Nat.div_unique with 0%nat; lia).
    replace (n / 2)%nat with k by (apply Nat.div_unique with 1%nat; lia).
    rewrite seq_S, map_app, fold_left_app, parse_fold_pairs by (fold n; lia).
    cbn. unfold parse_step. fold n.
    destruct (Nat.ltb_spec (k * 2 + 1) n) as [?|_]; [lia|done].
Qed.

Lemma ordered_pairs_firstn t :
  ordered_pairs (firstn (2 * (length t / 2)) t) = ordered_pairs t.
Proof.
  unfold ordered_pairs.
  assert (Hle : (2 * (length t / 2) <= length t)%nat)
    by (apply Nat.Div0.mul_div_le).
  rewrite length_firstn, Nat.min_l by done.
  rewrite Nat.mul_comm, Nat.div_mul by done.
  f_equal. apply list_fmap_ext. intros j i Hi%lookup_seq.
  destruct Hi as [-> Hi]. cbn [Nat.add].
  rewrite !nth_lookup, !lookup_take_lt by lia. done.
Qed.

End Parser.

(** C5. The parser returns exactly the pairs [(t[2i], t[2i+1])] with
    [t[2i] < t[2i+1]], in order of increasing [i] (so a pair with
    [t[2i] >= t[2i+1]] is left out and nothing is raised); a trailing
    unpaired element is dropped: parsing [t] is parsing its longest prefix of
    even length, and parsing [[s1,e1,s2,e2,x]] is parsing [[s1,e1,s2,e2]]. *)
Theorem parse_timestamps_pairs_in_order (t : list Z) :
  _parse_timestamps_to_intervals t
  = Ok (filter (fun p : Interval => p.1 < p.2)
          ((fun i => (nth (2 * i) t 0, nth (2 * i + 1) t 0)) <$>
             seq 0 (length t / 2)%nat))
  /\ _parse_timestamps_to_intervals (firstn (2 * (length t / 2)) t)
     = _parse_timestamps_to_intervals t
  /\ (forall s1 e1 s2 e2 x : Z,
        _parse_timestamps_to_intervals [s1; e1; s2; e2; x]
        = _parse_timestamps_to_intervals [s1; e1; s2; e2]).
Proof.
  split; [apply parse_ordered_pairs|]. split.
  - by rewrite !parse_ordered_pairs, ordered_pairs_firstn.
  - intros s1 e1 s2 e2 x.
    rewrite !parse_ordered_pairs. reflexivity.
Qed.

(** ** The Interval Clipper *)

Section Clipper.
Variables L U : Z.

Lemma clip_acc xs acc :
  fold_left
    (fun clipped '(start, end_) =>
       let effective_start := Z.max start L in
       let effective_end := Z.min end_ U in
       if effective_start <? effective_end
       then clipped ++ [(effective_start, effective_end)]
       else clipped)
    xs acc
  = acc ++ clip_map_filter xs L U.
Proof.
  revert acc. induction xs as [|[s e] xs IH]; intros acc.
  - cbn. by rewrite app_nil_r.
  - cbn [fold_left]. rewrite IH. unfold clip_map_filter.
    rewrite fmap_cons, filter_cons. cbn [fst snd].
    destruct (Z.ltb_spec (Z.max s L) (Z.min e U)); case_decide; try lia.
    + by rewrite <- app_assoc.
    + done.
Qed.

Lemma clip_is_map_filter xs :
  _clip_intervals_to_lesson xs L U = clip_map_filter xs L U.
Proof. unfold _clip_intervals_to_lesson. by rewrite clip_acc. Qed.

Lemma clip_within xs : Forall (within_lesson L U) (_clip_intervals_to_lesson xs L U).
Proof.
  rewrite clip_is_map_filter. unfold clip_map_filter.
  apply Forall_forall. intros [s e] [Hlt Hin]%list_elem_of_filter.
  apply list_elem_of_fmap in Hin as [[s0 e0] [[= -> ->] _]].
  unfold within_lesson; cbn [fst snd] in *. lia.
Qed.

Lemma clip_fixes_within ys :
  Forall (within_lesson L U) ys -> clip_map_filter ys L U = ys.
Proof.
  unfold clip_map_filter.
  induction 1 as [|[s e] ys (HL & HU & Hlt) _ IH]; [done|].
  cbn [fst snd] in HL, HU, Hlt. rewrite fmap_cons, filter_cons.
  cbn [fst snd]. case_decide; [|lia].
  f_equal; [f_equal; lia|exact IH].
Qed.
End Clipper.

(** C6. The clipper maps each interval [(s, e)] to [(max(s, L), min(e, U))],
    keeps it only if the clipped start is strictly less than the clipped end,
    and preserves the order; every interval [(s', e')] it returns satisfies
    [L <= s'], [e' <= U] and [s' < e']. *)
Theorem clip_intervals_map_filter_bounds (xs : list Interval) (L U : Z) :
  _clip_intervals_to_lesson xs L U
  = filter (fun p : Interval => p.1 < p.2)
      ((fun p : Interval => (Z.max p.1 L, Z.min p.2 U)) <$> xs)
  /\ Forall (fun p : Interval => L <= p.1 /\ p.2 <= U /\ p.1 < p.2)
       (_clip_intervals_to_lesson xs L U).
Proof. split; [apply clip_is_map_filter|apply clip_within]. Qed.

(** C9. Clipping is idempotent: clipping the clipper's output again to the
    same bounds returns it unchanged. *)
Theorem clip_intervals_idempotent (xs : list Interval) (L U : Z) :
  _clip_intervals_to_lesson (_clip_intervals_to_lesson xs L U) L U
  = _clip_intervals_to_lesson xs L U.
Proof.
  rewrite (clip_is_map_filter L U (_clip_intervals_to_lesson xs L U)).
  apply clip_fixes_within, clip_within.
Qed.

(** ** Measuring sets of integer points *)

Section Count.
Context (P Q : Z -> Prop) `{forall x, Decision (P x)} `{forall x, Decision (Q x)}.

Lemma elem_of_window x lo hi : x ∈ seqZ lo (hi - lo) <-> lo <= x < hi.
Proof. rewrite elem_of_seqZ. lia. Qed.

Lemma count_in_subset lo1 hi1 lo2 hi2 :
  (forall x, lo1 <= x < hi1 -> P x -> lo2 <= x < hi2 /\ Q x) ->
  (count_in P lo1 hi1 <= count_in Q lo2 hi2)%nat.
Proof.
  intros Hsub. unfold count_in. apply submseteq_length, NoDup_submseteq.
  - apply NoDup_filter, NoDup_seqZ.
  - intros x [HP Hx]%list_elem_of_filter. apply elem_of_window in Hx.
    apply list_elem_of_filter. rewrite elem_of_window.
    destruct (Hsub x Hx HP). done.
Qed.

Lemma count_in_le lo hi : (Z.of_nat (count_in P lo hi) <= Z.max 0 (hi - lo)).
Proof.
  unfold count_in. pose proof (length_filter P (seqZ lo (hi - lo))) as Hle.
  rewrite length_seqZ in Hle. lia.
Qed.

Lemma count_in_full lo hi :
  (forall x, lo <= x < hi -> P x) -> count_in P lo hi = Z.to_nat (hi - lo).
Proof.
  intros Hall. unfold count_in. apply Nat.le_antisymm.
  - rewrite <- (length_seqZ lo (hi - lo)). apply length_filter.
  - rewrite <- (length_seqZ lo (hi - lo)) at 1.
    apply submseteq_length, NoDup_submseteq; [apply NoDup_seqZ|].
    intros x Hx. apply list_elem_of_filter. split; [|done].
    by apply Hall, elem_of_window.
Qed.

Lemma count_in_split lo mid hi :
  lo <= mid <= hi ->
  count_in P lo hi = (count_in P lo mid + count_in P mid hi)%nat.
Proof.
  intros Hm. unfold count_in.
  replace (hi - lo) with ((mid - lo) + (hi - mid)) by lia.
  rewrite seqZ_app, filter_app, length_app by lia.
  by replace (lo + (mid - lo)) with mid by lia.
Qed.
End Count.

Lemma count_in_eq (P Q : Z -> Prop)
    `{forall x, Decision (P x)} `{forall x, Decision (Q x)} lo1 hi1 lo2 hi2 :
  (forall x, lo1 <= x < hi1 /\ P x <-> lo2 <= x < hi2 /\ Q x) ->
  count_in P lo1 hi1 = count_in Q lo2 hi2.
Proof.
  intros Heq. apply Nat.le_antisymm; apply count_in_subset;
    intros x Hx HP; by apply Heq.
Qed.

(** ** The Overlap Accumulator *)

Section CommonSegments.

Lemma inner_loop_elem (a : Interval) B acc p :
  p ∈ fold_left
        (fun common_segments '(r2_start, r2_end) =>
           let overlap_start := Z.max a.1 r2_start in
           let overlap_end := Z.min a.2 r2_end in
           if overlap_start <? overlap_end
           then common_segments ++ [(overlap_start, overlap_end)]
           else common_segments)
        B acc
  <-> p ∈ acc \/ exists b, b ∈ B /\ (intersect a b).1 < (intersect a b).2
                           /\ p = intersect a b.
Proof.
  revert acc. induction B as [|[s2 e2] B IH]; intros acc; cbn [fold_left].
  - split; [by left|]. intros [?|(b & Hb & _)]; [done|]. by apply elem_of_nil in Hb.
  - rewrite IH. unfold intersect. cbn [fst snd].
    destruct (Z.ltb_spec (Z.max a.1 s2) (Z.min a.2 e2)) as [Hlt|Hge].
    + rewrite elem_of_app, list_elem_of_singleton. split.
      * intros [[?| ->]|(b & Hb & ?)]; [by left| |].
        -- right. exists (s2, e2). split; [left|done].
        -- right. exists b. split; [by right|done].
      * intros [?|(b & Hb & Hm & ->)]; [by left; left|].
        apply elem_of_cons in Hb as [->|Hb]; [by left; right|].
        right. by exists b.
    + split.
      * intros [?|(b & Hb & ?)]; [by left|]. right. exists b. split; [by right|done].
      * intros [?|(b & Hb & Hm & ->)]; [by left|].
        apply elem_of_cons in Hb as [->|Hb]; [cbn [fst snd] in Hm; lia|].
        right. by exists b.
Qed.

Lemma outer_loop_elem A B acc p :
  p ∈ fold_left
        (fun common_segments '(r1_start, r1_end) =>
           fold_left
             (fun common_segments '(r2_start, r2_end) =>
                let overlap_start := Z.max r1_start r2_start in
                let overlap_end := Z.min r1_end r2_end in
                if overlap_start <? overlap_end
                then common_segments ++ [(overlap_start, overlap_end)]
                else common_segments)
             B common_segments)
        A acc
  <-> p ∈ acc \/ exists a b, a ∈ A /\ b ∈ B
                    /\ (intersect a b).1 < (intersect a b).2
                    /\ p = intersect a b.
Proof.
  revert acc. induction A as [|[s1 e1] A IH]; intros acc; cbn [fold_left].
  - split; [by left|]. intros [?|(a & b & Ha & _)]; [done|].
    by apply elem_of_nil in Ha.
  - rewrite IH, (inner_loop_elem (s1, e1)). split.
    + intros [[?|(b & Hb & ?)]|(a & b & Ha & ?)]; [by left| |].
      * right. exists (s1, e1), b. split; [left|done].
      * right. exists a, b. split; [by right|done].
    + intros [?|(a & b & Ha & Hb & Hm & ->)]; [by left; left|].
      apply elem_of_cons in Ha as [->|Ha].
      * left; right. by exists b.
      * right. by exists a, b.
Qed.

Lemma common_segments_elem A B p :
  p ∈ common_segments_of A B
  <-> exists a b, a ∈ A /\ b ∈ B /\ (intersect a b).1 < (intersect a b).2
                  /\ p = intersect a b.
Proof.
  unfold common_segments_of. rewrite outer_loop_elem. split; [|by right].
  intros [Hp|?]; [by apply elem_of_nil in Hp|done].
Qed.

Lemma covered_iff A B x :
  covered A B x
  <-> exists a b, a ∈ A /\ b ∈ B /\ a.1 <= x < a.2 /\ b.1 <= x < b.2.
Proof.
  unfold covered. rewrite Exists_exists. setoid_rewrite Exists_exists.
  unfold in_interval. split.
  - intros (a & Ha & b & Hb & Hxa & Hxb). by exists a, b.
  - intros (a & b & Ha & Hb & Hxa & Hxb).
    exists a. split; [done|]. by exists b.
Qed.

Lemma covers_iff segs x :
  covers segs x <-> exists p, p ∈ segs /\ p.1 <= x < p.2.
Proof. unfold covers. by rewrite Exists_exists. Qed.

(** A point lies in a common segment exactly when it lies in an interval
    of each list. *)
Lemma covers_common_segments A B x :
  covers (common_segments_of A B) x <-> covered A B x.
Proof.
  rewrite covers_iff, covered_iff. setoid_rewrite common_segments_elem.
  unfold intersect. split.
  - intros (p & (a & b & Ha & Hb & Hm & ->) & Hx). cbn [fst snd] in *.
    exists a, b. repeat split; (done || lia).
  - intros (a & b & Ha & Hb & Hxa & Hxb).
    exists (Z.max a.1 b.1, Z.min a.2 b.2). cbn [fst snd].
    split; [|lia]. exists a, b. repeat split; (done || lia).
Qed.

Lemma common_segments_nonempty A B :
  Forall (fun p : Interval => p.1 < p.2) (common_segments_of A B).
Proof.
  apply Forall_forall. intros p (a & b & _ & _ & Hm & ->)%common_segments_elem.
  done.
Qed.

End CommonSegments.

Section SortFacts.
Context {A : Type} (key : A -> Z).

Lemma insert_by_perm x l : insert_by key x l ≡ₚ x :: l.
Proof.
  induction l as [|y l IH]; cbn; [done|].
  destruct (key x <=? key y); [done|]. rewrite IH. apply Permutation_swap.
Qed.

Lemma sort_by_perm l : sort_by key l ≡ₚ l.
Proof.
  induction l as [|x l IH]; cbn; [done|]. by rewrite insert_by_perm, IH.
Qed.

Lemma insert_by_sorted x l :
  StronglySorted (fun p q => key p <= key q) l ->
  StronglySorted (fun p q => key p <= key q) (insert_by key x l).
Proof.
  induction 1 as [|y l Hl IH Hy]; cbn.
  - by repeat constructor.
  - destruct (Z.leb_spec (key x) (key y)) as [Hle|Hgt].
    + constructor; [by constructor|]. constructor; [done|].
      eapply Forall_impl; [exact Hy|]. cbn. intros; lia.
    + constructor; [done|]. rewrite insert_by_perm.
      constructor; [lia|done].
Qed.

Lemma sort_by_sorted l :
  StronglySorted (fun p q => key p <= key q) (sort_by key l).
Proof.
  induction l as [|x l IH]; cbn; [constructor|by apply insert_by_sorted].
Qed.

(** The sort is stable: elements with equal keys keep their order. *)
Lemma insert_by_stable k x l :
  filter (fun p => key p = k) (insert_by key x l)
  = filter (fun p => key p = k) (x :: l).
Proof.
  induction l as [|y l IH]; cbn [insert_by]; [done|].
  destruct (Z.leb_spec (key x) (key y)) as [Hle|Hgt]; [done|].
  rewrite filter_cons, IH, !filter_cons.
  repeat case_decide; (done || lia).
Qed.

Lemma sort_by_stable k l :
  filter (fun p => key p = k) (sort_by key l) = filter (fun p => key p = k) l.
Proof.
  induction l as [|x l IH]; cbn [sort_by]; [done|].
  by rewrite insert_by_stable, !filter_cons, IH.
Qed.
End SortFacts.

Section MergeLoop.

Lemma merge_step_middle pre p rest st :
  merge_step (pre ++ p :: rest) st (length pre) = Ok (merge_pure st p).
Proof.
  destruct st as [[merged s] e], p as [ns ne]. unfold merge_step.
  rewrite getitem_middle. cbn. by destruct (ns <? e).
Qed.

Lemma merge_loop_fold pre rest st :
  for_each (seq (length pre) (length rest)) (merge_step (pre ++ rest)) st
  = Ok (fold_left merge_pure rest st).
Proof.
  revert pre st. induction rest as [|p rest IH]; intros pre st; [done|].
  cbn [length seq for_each fold_left]. rewrite merge_step_middle.
  specialize (IH (pre ++ [p])).
  rewrite length_app, Nat.add_1_r, <- app_assoc in IH. apply IH.
Qed.

Lemma total_duration_snoc merged s e :
  total_duration_of (merged ++ [(s, e)]) = total_duration_of merged + (e - s).
Proof.
  unfold total_duration_of at 1. rewrite fold_left_app. cbn [fold_left].
  fold (total_duration_of merged). lia.
Qed.

Lemma merge_fold_total rest merged s e :
  let '(merged', s', e') := fold_left merge_pure rest (merged, s, e) in
  total_duration_of (merged' ++ [(s', e')])
  = total_duration_of merged + sweep_total s e rest.
Proof.
  revert merged s e. induction rest as [|[ns ne] rest IH]; intros merged s e.
  - cbn. apply total_duration_snoc.
  - cbn [fold_left merge_pure sweep_total fst snd].
    destruct (ns <? e).
    + apply IH.
    + specialize (IH (merged ++ [(s, e)]) ns ne).
      destruct (fold_left _ _ _) as [[m' s'] e'].
      rewrite IH, total_duration_snoc. lia.
Qed.

End MergeLoop.

Section SweepMeasure.

Lemma count_in_True s e : s <= e -> Z.of_nat (count_in (fun _ => True) s e) = e - s.
Proof. intros Hse. rewrite count_in_full by done. lia. Qed.

Lemma count_in_none (P : Z -> Prop) `{forall x, Decision (P x)} lo hi :
  (forall x, lo <= x < hi -> ~ P x) -> count_in P lo hi = 0%nat.
Proof.
  intros Hnone. rewrite (count_in_eq P (fun _ => True) lo hi 0 0).
  - reflexivity.
  - intros x. split; [intros [Hx HP]; by destruct (Hnone x Hx)|lia].
Qed.

Lemma covers_cons p segs x :
  covers (p :: segs) x <-> p.1 <= x < p.2 \/ covers segs x.
Proof. unfold covers. by rewrite Exists_cons. Qed.

Lemma covers_nil x : ~ covers [] x.
Proof. unfold covers. intros H. by apply Exists_nil in H. Qed.

Lemma covers_from segs x lo :
  Forall (fun p : Interval => lo <= p.1) segs -> covers segs x -> lo <= x.
Proof.
  intros Hlo (p & Hp & Hx)%covers_iff.
  rewrite Forall_forall in Hlo. specialize (Hlo p Hp). cbn in Hlo. lia.
Qed.

Lemma covers_below segs x hi :
  Forall (fun p : Interval => p.1 < p.2 /\ p.2 <= hi) segs ->
  covers segs x -> x < hi.
Proof.
  intros Hhi (p & Hp & Hx)%covers_iff.
  rewrite Forall_forall in Hhi. specialize (Hhi p Hp). cbn in Hhi. lia.
Qed.

(** On segments sorted by start, the sweep adds up the number of points
    of the union of the running segment and the segments still to come. *)
Lemma sweep_total_count hi rest : forall s e,
  s < e -> e <= hi ->
  Forall (fun p : Interval => p.1 < p.2 /\ p.2 <= hi) rest ->
  Forall (fun p : Interval => s <= p.1) rest ->
  StronglySorted (fun p q : Interval => p.1 <= q.1) rest ->
  sweep_total s e rest
  = Z.of_nat (count_in (fun x => s <= x < e \/ covers rest x) s hi).
Proof.
  induction rest as [|[ns ne] rest IH]; intros s e Hse Hhi Hne Hfrom Hsorted.
  - cbn [sweep_total]. rewrite <- (count_in_True s e) by lia. f_equal.
    apply count_in_eq. intros x. pose proof (covers_nil x). intuition lia.
  - apply Forall_cons in Hne as [[Hn Hnhi] Hne].
    apply Forall_cons in Hfrom as [Hsn Hfrom].
    apply StronglySorted_inv in Hsorted as [Hsorted Hns].
    cbn [fst snd] in *. cbn [sweep_total fst snd].
    destruct (Z.ltb_spec ns e) as [Hlt|Hge].
    + rewrite IH by (done || lia). f_equal. apply count_in_eq.
      intros x. rewrite covers_cons. cbn [fst snd]. intuition lia.
    + rewrite (IH ns ne) by (done || lia).
      rewrite (count_in_split _ s ns hi) by lia.
      rewrite Nat2Z.inj_add. f_equal.
      * rewrite <- (count_in_True s e) by lia. f_equal. symmetry.
        apply count_in_eq. intros x. rewrite covers_cons. cbn [fst snd].
        pose proof (covers_from rest x ns Hns). intuition lia.
      * f_equal. apply count_in_eq. intros x. rewrite covers_cons.
        cbn [fst snd]. intuition lia.
Qed.

Lemma ends_bounded (segs : list Interval) :
  Forall (fun p : Interval => p.1 < p.2) segs ->
  exists hi, Forall (fun p : Interval => p.1 < p.2 /\ p.2 <= hi) segs.
Proof.
  induction 1 as [|p segs Hp _ [hi IH]].
  - by exists 0.
  - exists (Z.max hi p.2). constructor; [lia|].
    eapply Forall_impl; [exact IH|]. cbn. intros; lia.
Qed.

End SweepMeasure.

Section Accumulator.

Lemma covers_perm segs1 segs2 x :
  segs1 ≡ₚ segs2 -> covers segs1 x <-> covers segs2 x.
Proof. intros Hp. rewrite !covers_iff. by setoid_rewrite Hp. Qed.

(** The accumulator returns the number of points lying in an interval of
    each list, counted in any window that holds all of them. *)
Lemma overlap_duration_count A B lo hi :
  (forall x, covered A B x -> lo <= x < hi) ->
  _calculate_overlap_duration A B = Ok (Z.of_nat (count_in (covered A B) lo hi)).
Proof.
  intros Hwin. unfold _calculate_overlap_duration.
  pose proof (common_segments_nonempty A B) as Hne.
  pose proof (covers_common_segments A B) as Hcov.
  destruct (common_segments_of A B) as [|p0 cs] eqn:Hcs.
  - cbn. rewrite count_in_none; [done|].
    intros x _ Hx%Hcov. by apply covers_nil in Hx.
  - cbn [is_empty].
    pose proof (sort_by_perm fst (p0 :: cs)) as Hperm.
    pose proof (sort_by_sorted fst (p0 :: cs)) as Hsorted.
    destruct (sort_by fst (p0 :: cs)) as [|[s0 e0] rest] eqn:Hsort.
    { by apply Permutation_nil_cons in Hperm. }
    rewrite <- Hperm in Hne. setoid_rewrite <- (covers_perm _ _ _ Hperm) in Hcov.
    apply Forall_cons in Hne as [Hse Hne]. cbn [fst snd] in Hse.
    apply StronglySorted_inv in Hsorted as [Hsorted Hfrom].
    destruct (ends_bounded ((s0, e0) :: rest)) as [top Htop];
      [by constructor|].
    pose proof Htop as Htop'. apply Forall_cons in Htop' as [[_ He0] Hrest].
    cbn [fst snd] in He0.
    cbn [getitem lookup list_lookup mbind result_bind].
    rewrite range_from_1. cbn [length]. rewrite Nat.sub_succ, Nat.sub_0_r.
    rewrite (merge_loop_fold [(s0, e0)] rest).
    pose proof (merge_fold_total rest [] s0 e0) as Htotal.
    destruct (fold_left merge_pure rest ([], s0, e0)) as [[merged s'] e'].
    cbv beta iota in Htotal.
    cbn [mbind result_bind mret result_ret]. rewrite Htotal.
    rewrite (sweep_total_count top) by done.
    change (total_duration_of []) with 0. rewrite Z.add_0_l.
    do 2 f_equal. apply count_in_eq. intros x.
    rewrite <- Hcov, covers_cons. cbn [fst snd]. split.
    + intros [Hx Hin]. split; [|done].
      apply Hwin, Hcov, covers_cons. done.
    + intros [_ Hin]. split; [|done].
      pose proof (covers_from rest x s0 Hfrom).
      pose proof (covers_below rest x top Hrest). intuition lia.
Qed.

Lemma covered_comm A B x : covered A B x <-> covered B A x.
Proof.
  rewrite !covered_iff. split; intros (a & b & ? & ? & ? & ?); by exists b, a.
Qed.

End Accumulator.

Section Hull.

Lemma fold_min_le (A : list Interval) z :
  fold_right (fun p m => Z.min p.1 m) z A <= z
  /\ forall p, p ∈ A -> fold_right (fun p m => Z.min p.1 m) z A <= p.1.
Proof.
  induction A as [|q A [IHz IHp]]; cbn [fold_right].
  - split; [lia|]. by intros p ?%elem_of_nil.
  - split; [lia|]. intros p [->|Hp]%elem_of_cons; [lia|].
    specialize (IHp p Hp). lia.
Qed.

Lemma fold_max_ge (A : list Interval) z :
  z <= fold_right (fun p m => Z.max p.2 m) z A
  /\ forall p, p ∈ A -> p.2 <= fold_right (fun p m => Z.max p.2 m) z A.
Proof.
  induction A as [|q A [IHz IHp]]; cbn [fold_right].
  - split; [lia|]. by intros p ?%elem_of_nil.
  - split; [lia|]. intros p [->|Hp]%elem_of_cons; [lia|].
    specialize (IHp p Hp). lia.
Qed.

Lemma hull_lo_le A p : p ∈ A -> hull_lo A <= p.1.
Proof.
  destruct A as [|a A]; [by intros ?%elem_of_nil|]. cbn [hull_lo].
  destruct (fold_min_le A a.1) as [Hz Hp].
  intros [->|Hin]%elem_of_cons; [done|by apply Hp].
Qed.

Lemma hull_hi_ge A p : p ∈ A -> p.2 <= hull_hi A.
Proof.
  destruct A as [|a A]; [by intros ?%elem_of_nil|]. cbn [hull_hi].
  destruct (fold_max_ge A a.2) as [Hz Hp].
  intros [->|Hin]%elem_of_cons; [done|by apply Hp].
Qed.

Lemma covered_in_hull A B x : covered A B x -> hull_lo A <= x < hull_hi A.
Proof.
  intros (a & b & Ha & _ & Hx & _)%covered_iff.
  pose proof (hull_lo_le A a Ha). pose proof (hull_hi_ge A a Ha). lia.
Qed.

Lemma overlap_duration_measure A B :
  _calculate_overlap_duration A B = Ok (overlap_measure A B).
Proof. apply overlap_duration_count, covered_in_hull. Qed.

Lemma overlap_duration_nil_r A : _calculate_overlap_duration A [] = Ok 0.
Proof.
  rewrite (overlap_duration_count A [] 0 0); [done|].
  intros x (a & b & _ & Hb & _)%covered_iff. by apply elem_of_nil in Hb.
Qed.

Lemma covered_widen A1 A2 B s e s' e' x :
  s' <= s -> e <= e' ->
  covered (A1 ++ (s, e) :: A2) B x -> covered (A1 ++ (s', e') :: A2) B x.
Proof.
  intros Hs He. rewrite !covered_iff.
  intros (a & b & Ha & Hb & Hxa & Hxb).
  apply elem_of_app in Ha as [Ha|Ha].
  - exists a, b. rewrite elem_of_app. by auto.
  - apply elem_of_cons in Ha as [->|Ha].
    + exists (s', e'), b. rewrite elem_of_app, elem_of_cons.
      cbn [fst snd] in *. repeat split; (by auto) || lia.
    + exists a, b. rewrite elem_of_app, elem_of_cons. by auto.
Qed.

End Hull.

(** C2. For all interval lists [A] and [B] the accumulator returns a
    non-negative integer, the total duration of the set of points covered by
    at least one intersection of an interval of [A] with an interval of [B],
    each point counted once however many pairs cover it: the number of
    integer points of that set, which [covered_points] lists without
    repetition.  It returns [0] when either list is empty. *)
Theorem calculate_overlap_duration_is_measure (A B : list Interval) :
  exists r,
    _calculate_overlap_duration A B = Ok r
    /\ 0 <= r
    /\ r = Z.of_nat (length (covered_points A B))
    /\ NoDup (covered_points A B)
    /\ (forall x, x ∈ covered_points A B
                  <-> exists a b, a ∈ A /\ b ∈ B
                                  /\ a.1 <= x < a.2 /\ b.1 <= x < b.2)
    /\ _calculate_overlap_duration [] B = Ok 0
    /\ _calculate_overlap_duration A [] = Ok 0.
Proof.
  exists (overlap_measure A B). split; [apply overlap_duration_measure|].
  unfold overlap_measure. split; [lia|]. split; [done|]. split.
  { apply NoDup_filter, NoDup_seqZ. }
  split; [|split; [done|apply overlap_duration_nil_r]].
  intros x. unfold covered_points.
  rewrite list_elem_of_filter, elem_of_window, <- covered_iff. split; [tauto|].
  intros Hx. split; [done|by apply covered_in_hull with B].
Qed.

(** C7. The accumulated overlap duration is symmetric in its two lists. *)
Theorem calculate_overlap_duration_symmetric (A B : list Interval) :
  _calculate_overlap_duration A B = _calculate_overlap_duration B A.
Proof.
  rewrite (overlap_duration_count A B (hull_lo A) (hull_hi A))
    by apply covered_in_hull.
  rewrite (overlap_duration_count B A (hull_lo A) (hull_hi A))
    by (intros x Hx%covered_comm; by apply covered_in_hull with B).
  do 2 f_equal. apply count_in_eq. intros x. by rewrite covered_comm.
Qed.

(** C8. Widening one interval [(s, e)] of [A] to [(s', e')] with [s' <= s]
    and [e <= e'] cannot decrease the accumulated overlap duration. *)
Theorem calculate_overlap_duration_monotone
    (A1 A2 B : list Interval) (s e s' e' : Z) :
  s' <= s -> e <= e' ->
  exists r r',
    _calculate_overlap_duration (A1 ++ (s, e) :: A2) B = Ok r
    /\ _calculate_overlap_duration (A1 ++ (s', e') :: A2) B = Ok r'
    /\ r <= r'.
Proof.
  intros Hs He. eexists _, _.
  split; [apply overlap_duration_measure|].
  split; [apply overlap_duration_measure|].
  unfold overlap_measure, covered_points. apply inj_le.
  apply (count_in_subset (covered _ B) (covered _ B)).
  intros x _ Hx%(covered_widen _ _ _ _ _ s' e'); [|done..].
  split; [by apply covered_in_hull with B|done].
Qed.

Lemma calculate_overlap_duration_monotone_witness :
  (8 <= 10 /\ 20 <= 30) /\
  exists r r',
    _calculate_overlap_duration ([(0, 3)] ++ (10, 20) :: [(40, 50)]) [(5, 45)] = Ok r
    /\ _calculate_overlap_duration ([(0, 3)] ++ (8, 30) :: [(40, 50)]) [(5, 45)] = Ok r'
    /\ r <= r'.
Proof.
  split; [lia|].
  apply (calculate_overlap_duration_monotone [(0, 3)] [(40, 50)] [(5, 45)]
           10 20 8 30); lia.
Defined.

(** ** The Orchestrator *)

Section Orchestrator.
Variable d : gmap string (list Z).

Lemma appearance_short_lesson :
  (length (times_of "lesson" d) < 2)%nat -> appearance d = Ok 0.
Proof.
  unfold appearance, times_of.
  destruct (default [] (d !! "lesson"%string)) as [|a [|b rest]]; cbn; (done || lia).
Qed.

Lemma overlap_duration_is_empty A B :
  is_empty A || is_empty B = true -> _calculate_overlap_duration A B = Ok 0.
Proof.
  destruct A as [|a A]; [done|]. destruct B as [|b B]; [|done].
  intros _. apply overlap_duration_nil_r.
Qed.

Lemma appearance_lesson a b rest :
  times_of "lesson" d = a :: b :: rest ->
  appearance d
  = if a >=? b then Ok 0
    else _calculate_overlap_duration
           (effective_intervals (times_of "pupil" d) a b)
           (effective_intervals (times_of "tutor" d) a b).
Proof.
  unfold appearance, times_of, effective_intervals. intros ->.
  cbn [is_empty length Nat.ltb Nat.leb orb getitem lookup list_lookup
       mbind result_bind].
  destruct (a >=? b); [done|].
  rewrite !parse_ordered_pairs. cbn [mbind result_bind].
  destruct (is_empty _ || is_empty _) eqn:Hempty; [|done].
  by rewrite overlap_duration_is_empty.
Qed.

Lemma covered_effective pupil tutor a b x :
  covered (effective_intervals pupil a b) (effective_intervals tutor a b) x ->
  a <= x < b.
Proof.
  intros (p & t & Hp & _ & Hx & _)%covered_iff.
  pose proof (clip_within a b (ordered_pairs pupil)) as Hin.
  rewrite Forall_forall in Hin. destruct (Hin p Hp) as (? & ? & ?). lia.
Qed.

End Orchestrator.

(** C1. On the first provided example [appearance] returns [3117]. *)
Theorem appearance_provided_1 : appearance provided_1 = Ok 3117.
Proof. vm_compute. reflexivity. Qed.

(** C3. [appearance] returns an integer on every mapping from string keys to
    integer sequences: whatever keys are absent and whatever the sequences
    hold, no exception is raised. *)
Theorem appearance_total (d : gmap string (list Z)) :
  exists r : Z, appearance d = Ok r.
Proof.
  destruct (times_of "lesson" d) as [|a [|b rest]] eqn:Hlesson.
  - exists 0. apply appearance_short_lesson. rewrite Hlesson. cbn. lia.
  - exists 0. apply appearance_short_lesson. rewrite Hlesson. cbn. lia.
  - rewrite (appearance_lesson d a b rest Hlesson).
    destruct (a >=? b); [by exists 0|].
    eexists. apply overlap_duration_measure.
Qed.

(** C4. If [lesson] has fewer than two elements, or if
    [lesson[0] >= lesson[1]], then [appearance] returns [0], whatever
    [pupil] and [tutor] hold. *)
Theorem appearance_invalid_lesson (d : gmap string (list Z)) :
  (length (default [] (d !! "lesson"%string)) < 2)%nat
  \/ (exists a b, default [] (d !! "lesson"%string) !! 0%nat = Some a
                  /\ default [] (d !! "lesson"%string) !! 1%nat = Some b
                  /\ a >= b) ->
  appearance d = Ok 0.
Proof.
  intros [Hshort|(a & b & Ha & Hb & Hge)].
  - by apply appearance_short_lesson.
  - fold (times_of "lesson" d) in Ha, Hb.
    destruct (times_of "lesson" d) as [|a' [|b' rest]] eqn:Hlesson; try done.
    injection Ha as ->. injection Hb as ->.
    rewrite (appearance_lesson d a b rest Hlesson).
    destruct (Z.geb_spec a b); [done|lia].
Qed.

Lemma appearance_invalid_lesson_witness :
  appearance (session [7; 7] [0; 10] [0; 10]) = Ok 0
  /\ appearance (session [5] [0; 10] [0; 10]) = Ok 0.
Proof.
  split.
  - apply appearance_invalid_lesson. right. exists 7, 7.
    split; [reflexivity|]. split; [reflexivity|lia].
  - apply appearance_invalid_lesson. left. vm_compute. lia.
Defined.

(** C10. When [lesson] has at least two elements and
    [lesson[0] < lesson[1]], the result of [appearance] is at least [0] and
    at most the lesson duration [lesson[1] - lesson[0]]. *)
Theorem appearance_bounded_by_lesson (d : gmap string (list Z)) (a b : Z) :
  default [] (d !! "lesson"%string) !! 0%nat = Some a ->
  default [] (d !! "lesson"%string) !! 1%nat = Some b ->
  a < b ->
  exists r, appearance d = Ok r /\ 0 <= r <= b - a.
Proof.
  intros Ha Hb Hlt. fold (times_of "lesson" d) in Ha, Hb.
  destruct (times_of "lesson" d) as [|a' [|b' rest]] eqn:Hlesson; try done.
  injection Ha as ->. injection Hb as ->.
  rewrite (appearance_lesson d a b rest Hlesson).
  destruct (Z.geb_spec a b); [lia|].
  eexists. split.
  - apply (overlap_duration_count _ _ a b), covered_effective.
  - pose proof (count_in_le
      (covered (effective_intervals (times_of "pupil" d) a b)
               (effective_intervals (times_of "tutor" d) a b)) a b).
    lia.
Qed.

Lemma appearance_bounded_by_lesson_witness :
  10 < 20 /\
  exists r, appearance (session [10; 20] [0; 30] [5; 25]) = Ok r
            /\ 0 <= r <= 20 - 10.
Proof.
  split; [lia|].
  apply (appearance_bounded_by_lesson (session [10; 20] [0; 30] [5; 25]) 10 20);
    [reflexivity|reflexivity|lia].
Defined.

(** ** Further properties of the clipper *)

Section ClipperMore.

Lemma clip_cons s e xs L U :
  _clip_intervals_to_lesson ((s, e) :: xs) L U
  = (if Z.max s L <? Z.min e U then [(Z.max s L, Z.min e U)] else [])
    ++ _clip_intervals_to_lesson xs L U.
Proof.
  unfold _clip_intervals_to_lesson. cbn [fold_left].
  rewrite !clip_acc. by destruct (_ <? _).
Qed.

Lemma clip_nil L U : _clip_intervals_to_lesson [] L U = [].
Proof. reflexivity. Qed.

Lemma elem_of_clip xs L U q :
  q ∈ _clip_intervals_to_lesson xs L U
  <-> exists p, p ∈ xs /\ q = (Z.max p.1 L, Z.min p.2 U) /\ q.1 < q.2.
Proof.
  rewrite clip_is_map_filter. unfold clip_map_filter.
  rewrite list_elem_of_filter, list_elem_of_fmap. split.
  - intros (Hlt & p & -> & Hp). by exists p.
  - intros (p & Hp & -> & Hlt). split; [done|]. by exists p.
Qed.

(** The points of the clipped intervals are the points of the given ones
    that lie in [[L, U)]. *)
Lemma covers_clip xs L U x :
  covers (_clip_intervals_to_lesson xs L U) x <-> L <= x < U /\ covers xs x.
Proof.
  rewrite !covers_iff. setoid_rewrite elem_of_clip. split.
  - intros (q & (p & Hp & -> & Hlt) & Hx). cbn [fst snd] in *.
    split; [lia|]. exists p. split; [done|lia].
  - intros (HLU & p & Hp & Hx).
    exists (Z.max p.1 L, Z.min p.2 U). cbn [fst snd].
    split; [|lia]. exists p. cbn [fst snd]. repeat split; (done || lia).
Qed.

End ClipperMore.

(** X1. Clipping to [[L, U]] and then to [[L', U']] is clipping once to the
    intersection of the two windows. *)
Theorem clip_intervals_compose (xs : list Interval) (L U L' U' : Z) :
  _clip_intervals_to_lesson (_clip_intervals_to_lesson xs L U) L' U'
  = _clip_intervals_to_lesson xs (Z.max L L') (Z.min U U').
Proof.
  induction xs as [|[s e] xs IH]; [done|].
  rewrite !clip_cons, <- IH.
  destruct (Z.ltb_spec (Z.max s L) (Z.min e U)) as [Hin|Hout].
  - cbn [app]. rewrite clip_cons.
    replace (Z.max (Z.max s L) L') with (Z.max s (Z.max L L')) by lia.
    replace (Z.min (Z.min e U) U') with (Z.min e (Z.min U U')) by lia.
    reflexivity.
  - destruct (Z.ltb_spec (Z.max s (Z.max L L')) (Z.min e (Z.min U U')));
      [lia|done].
Qed.

(** X2. A window whose end is not after its start keeps nothing. *)
Theorem clip_intervals_empty_window (xs : list Interval) (L U : Z) :
  U <= L -> _clip_intervals_to_lesson xs L U = [].
Proof.
  intros HUL. induction xs as [|[s e] xs IH]; [done|].
  rewrite clip_cons, IH.
  destruct (Z.ltb_spec (Z.max s L) (Z.min e U)); [lia|done].
Qed.

Lemma clip_intervals_empty_window_witness :
  20 <= 20 /\ _clip_intervals_to_lesson [(0, 30); (15, 25)] 20 20 = [].
Proof.
  split; [lia|]. apply clip_intervals_empty_window. lia.
Defined.

(** X3. Intervals that already lie inside the window, each with its start
    before its end, are returned as they are. *)
Theorem clip_intervals_inside_unchanged (xs : list Interval) (L U : Z) :
  Forall (fun p : Interval => L <= p.1 /\ p.2 <= U /\ p.1 < p.2) xs ->
  _clip_intervals_to_lesson xs L U = xs.
Proof.
  intros Hin. rewrite clip_is_map_filter. by apply clip_fixes_within.
Qed.

Lemma clip_intervals_inside_unchanged_witness :
  _clip_intervals_to_lesson [(5, 10); (15, 20)] 5 20 = [(5, 10); (15, 20)].
Proof.
  apply clip_intervals_inside_unchanged.
  repeat constructor; cbn; lia.
Defined.

(** ** Further properties of the parser *)

Section ParserMore.

Lemma ordered_pairs_cons s e t :
  ordered_pairs (s :: e :: t)
  = (if decide (s < e) then [(s, e)] else []) ++ ordered_pairs t.
Proof.
  unfold ordered_pairs. cbn [length].
  replace (S (S (length t)) / 2)%nat with (S (length t / 2))
    by (change (S (S (length t))) with (2 + length t)%nat;
        rewrite (Nat.div_add_l 1 2) by done; lia).
  cbn [seq]. rewrite fmap_cons.
  assert (Htail :
    (fun i => (nth (2 * i) (s :: e :: t) 0, nth (2 * i + 1) (s :: e :: t) 0))
      <$> seq 1 (length t / 2)
    = (fun i => (nth (2 * i) t 0, nth (2 * i + 1) t 0))
      <$> seq 0 (length t / 2)).
  { rewrite <- fmap_S_seq, <- list_fmap_compose. apply list_fmap_ext.
    intros _ i _. cbn [compose].
    replace (2 * S i)%nat with (S (S (2 * i))) by lia. reflexivity. }
  rewrite Htail, filter_cons. cbn [fst snd Nat.mul Nat.add nth].
  by case_decide.
Qed.

Lemma ordered_pairs_valid t : Forall (fun p : Interval => p.1 < p.2) (ordered_pairs t).
Proof.
  apply Forall_forall. unfold ordered_pairs.
  by intros p [Hlt _]%list_elem_of_filter.
Qed.

Lemma ordered_pairs_length t : (length (ordered_pairs t) <= length t / 2)%nat.
Proof.
  unfold ordered_pairs.
  etransitivity; [apply length_filter|]. by rewrite length_fmap, length_seq.
Qed.

Lemma ordered_pairs_flatten xs :
  ordered_pairs (flatten_intervals xs)
  = filter (fun p : Interval => p.1 < p.2) xs.
Proof.
  induction xs as [|[s e] xs IH]; [done|].
  cbn [flatten_intervals flat_map fst snd app].
  fold (flatten_intervals xs).
  rewrite ordered_pairs_cons, filter_cons. cbn [fst snd].
  case_decide; cbn [app]; [f_equal|]; exact IH.
Qed.

(** An interval is returned exactly when it stands at an even position
    [2i] of the sequence with its start before its end. *)
Lemma elem_of_ordered_pairs t p :
  p ∈ ordered_pairs t
  <-> exists i, t !! (2 * i)%nat = Some p.1 /\ t !! (2 * i + 1)%nat = Some p.2
                /\ p.1 < p.2.
Proof.
  unfold ordered_pairs. rewrite list_elem_of_filter, list_elem_of_fmap.
  setoid_rewrite elem_of_seq. split.
  - intros (Hlt & i & -> & _ & Hi). cbn [fst snd] in *. exists i.
    assert (2 * i + 1 < length t)%nat as Hi'.
    { pose proof (Nat.Div0.mul_div_le (length t) 2). lia. }
    destruct (lookup_lt_is_Some_2 t (2 * i) ltac:(lia)) as [a Ha].
    destruct (lookup_lt_is_Some_2 t (2 * i + 1) Hi') as [b Hb].
    rewrite !nth_lookup, Ha, Hb in *. done.
  - intros (i & Ha & Hb & Hlt). split; [done|]. exists i.
    rewrite !nth_lookup, Ha, Hb. cbn. split; [by destruct p|].
    apply lookup_lt_Some in Hb.
    assert (S i <= length t / 2)%nat by (apply Nat.div_le_lower_bound; lia).
    change (Nat.divmod (length t) 1 0 1).1 with (length t / 2)%nat. lia.
Qed.

End ParserMore.

(** X4. Round trip with the flat format: parsing the sequence
    [[s1, e1, s2, e2, ...]] written from a list of intervals gives back the
    intervals whose start is before their end, in order. *)
Theorem parse_flatten_round_trip (xs : list Interval) :
  _parse_timestamps_to_intervals (flatten_intervals xs)
  = Ok (filter (fun p : Interval => p.1 < p.2) xs).
Proof. by rewrite parse_ordered_pairs, ordered_pairs_flatten. Qed.

(** X5. Every interval the parser returns has its start before its end, and
    it returns at most [len(timestamps) // 2] intervals. *)
Theorem parse_output_valid_and_short (t : list Z) :
  exists r, _parse_timestamps_to_intervals t = Ok r
            /\ Forall (fun p : Interval => p.1 < p.2) r
            /\ (length r <= length t / 2)%nat.
Proof.
  exists (ordered_pairs t). split; [apply parse_ordered_pairs|].
  split; [apply ordered_pairs_valid|apply ordered_pairs_length].
Qed.

(** ** Further properties of the accumulator *)

Section AccumulatorMore.

Lemma covered_covers A B x : covered A B x <-> covers A x /\ covers B x.
Proof.
  rewrite covered_iff, !covers_iff. split.
  - intros (a & b & Ha & Hb & Hxa & Hxb). split; [by exists a|by exists b].
  - intros [(a & Ha & Hxa) (b & Hb & Hxb)]. by exists a, b.
Qed.

Lemma covers_app A1 A2 x : covers (A1 ++ A2) x <-> covers A1 x \/ covers A2 x.
Proof. unfold covers. apply Exists_app. Qed.

Lemma length_filter_or (P Q : Z -> Prop)
    `{forall x, Decision (P x)} `{forall x, Decision (Q x)} (l : list Z) :
  (length (filter (fun x => P x \/ Q x) l)
   <= length (filter P l) + length (filter Q l))%nat.
Proof.
  induction l as [|x l IH]; [done|].
  rewrite !filter_cons. repeat case_decide; cbn [length]; (lia || tauto).
Qed.

Lemma count_in_or (P Q : Z -> Prop)
    `{forall x, Decision (P x)} `{forall x, Decision (Q x)} lo hi :
  (count_in (fun x => P x \/ Q x) lo hi <= count_in P lo hi + count_in Q lo hi)%nat.
Proof. apply length_filter_or. Qed.

(** The result is a function of the two sets of covered points. *)
Lemma overlap_duration_same_points A A' B B' :
  (forall x, covers A x <-> covers A' x) ->
  (forall x, covers B x <-> covers B' x) ->
  _calculate_overlap_duration A B = _calculate_overlap_duration A' B'.
Proof.
  intros HA HB.
  rewrite (overlap_duration_count A B (hull_lo A) (hull_hi A))
    by apply covered_in_hull.
  rewrite (overlap_duration_count A' B' (hull_lo A') (hull_hi A'))
    by apply covered_in_hull.
  do 2 f_equal. apply count_in_eq. intros x.
  pose proof (covered_in_hull A B x). pose proof (covered_in_hull A' B' x).
  rewrite !covered_covers, <- HA, <- HB in *. tauto.
Qed.

End AccumulatorMore.

(** X6. For one interval against one interval the accumulator returns the
    length of their intersection, [min(b, d) - max(a, c)], or [0] when they
    do not meet. *)
Theorem calculate_overlap_duration_single_pair (a b c d : Z) :
  _calculate_overlap_duration [(a, b)] [(c, d)]
  = Ok (Z.max 0 (Z.min b d - Z.max a c)).
Proof.
  unfold _calculate_overlap_duration, common_segments_of. cbn [fold_left].
  destruct (Z.ltb_spec (Z.max a c) (Z.min b d)); cbn; f_equal; lia.
Qed.

(** X7. Only the points the intervals cover matter: two lists that cover
    the same points give the same result against any [B], whatever the
    order of their intervals, their repetitions or the way a stretch of time
    is cut into intervals. *)
Theorem calculate_overlap_duration_same_points (A A' B : list Interval) :
  (forall x, (exists p, p ∈ A /\ p.1 <= x < p.2)
             <-> (exists p, p ∈ A' /\ p.1 <= x < p.2)) ->
  _calculate_overlap_duration A B = _calculate_overlap_duration A' B.
Proof.
  intros Hsame. apply overlap_duration_same_points; [|done].
  intros x. rewrite !covers_iff. apply Hsame.
Qed.

Lemma calculate_overlap_duration_same_points_witness :
  _calculate_overlap_duration [(0, 10)] [(3, 7); (8, 12)]
  = _calculate_overlap_duration [(5, 10); (0, 5); (0, 5)] [(3, 7); (8, 12)].
Proof.
  apply calculate_overlap_duration_same_points.
  intros x. rewrite <- !covers_iff, !covers_cons. cbn [fst snd].
  pose proof (covers_nil x). intuition lia.
Defined.

(** X8. Adding intervals to the first list cannot decrease the result, and
    the result for a concatenation is at most the sum of the results for
    its two parts. *)
Theorem calculate_overlap_duration_app (A1 A2 B : list Interval) :
  exists r r1 r2,
    _calculate_overlap_duration (A1 ++ A2) B = Ok r
    /\ _calculate_overlap_duration A1 B = Ok r1
    /\ _calculate_overlap_duration A2 B = Ok r2
    /\ r1 <= r /\ r2 <= r /\ r <= r1 + r2.
Proof.
  set (lo := hull_lo (A1 ++ A2)). set (hi := hull_hi (A1 ++ A2)).
  assert (Hwin : forall x, covered (A1 ++ A2) B x -> lo <= x < hi)
    by apply covered_in_hull.
  assert (Happ : forall x, covered (A1 ++ A2) B x
                           <-> covered A1 B x \/ covered A2 B x).
  { intros x. rewrite !covered_covers, covers_app. tauto. }
  exists (Z.of_nat (count_in (covered (A1 ++ A2) B) lo hi)),
         (Z.of_nat (count_in (covered A1 B) lo hi)),
         (Z.of_nat (count_in (covered A2 B) lo hi)).
  split; [by apply overlap_duration_count|].
  split; [apply overlap_duration_count; intros x Hx; apply Hwin, Happ; by left|].
  split; [apply overlap_duration_count; intros x Hx; apply Hwin, Happ; by right|].
  split; [|split].
  - apply inj_le, count_in_subset. intros x Hx HP. split; [done|].
    apply Happ. by left.
  - apply inj_le, count_in_subset. intros x Hx HP. split; [done|].
    apply Happ. by right.
  - rewrite <- Nat2Z.inj_add. apply inj_le.
    etransitivity; [|apply count_in_or].
    apply count_in_subset. intros x Hx HP. split; [done|]. by apply Happ.
Qed.

(** ** Further properties of the orchestrator *)

Section OrchestratorMore.

Lemma overlap_duration_comm A B :
  _calculate_overlap_duration A B = _calculate_overlap_duration B A.
Proof.
  rewrite (overlap_duration_count A B (hull_lo A) (hull_hi A))
    by apply covered_in_hull.
  rewrite (overlap_duration_count B A (hull_lo A) (hull_hi A))
    by (intros x Hx%covered_comm; by apply covered_in_hull with B).
  do 2 f_equal. apply count_in_eq. intros x. by rewrite covered_comm.
Qed.

(** With a valid lesson the result counts the instants of the lesson at
    which a pupil interval and a tutor interval both hold. *)
Lemma appearance_count d a b rest :
  times_of "lesson" d = a :: b :: rest -> a < b ->
  appearance d
  = Ok (Z.of_nat (count_in (covered (ordered_pairs (times_of "pupil" d))
                                    (ordered_pairs (times_of "tutor" d))) a b)).
Proof.
  intros Hlesson Hlt. rewrite (appearance_lesson d a b rest Hlesson).
  destruct (Z.geb_spec a b); [lia|].
  rewrite (overlap_duration_count _ _ a b) by apply covered_effective.
  do 2 f_equal. apply count_in_eq. intros x. unfold effective_intervals.
  rewrite !covered_covers, !covers_clip. tauto.
Qed.

Lemma appearance_inverted_lesson d a b rest :
  times_of "lesson" d = a :: b :: rest -> b <= a -> appearance d = Ok 0.
Proof.
  intros Hlesson Hle. rewrite (appearance_lesson d a b rest Hlesson).
  destruct (Z.geb_spec a b); [done|lia].
Qed.

Lemma length_filter_fmap (P Q : Z -> Prop)
    `{forall x, Decision (P x)} `{forall x, Decision (Q x)}
    (f : Z -> Z) (l : list Z) :
  (forall x, Q (f x) <-> P x) ->
  length (filter Q (f <$> l)) = length (filter P l).
Proof.
  intros HPQ. induction l as [|x l IH]; [done|].
  rewrite fmap_cons, !filter_cons.
  pose proof (HPQ x). repeat case_decide; cbn [length]; (lia || tauto).
Qed.

Lemma count_in_shift (P Q : Z -> Prop)
    `{forall x, Decision (P x)} `{forall x, Decision (Q x)} k lo hi :
  (forall x, Q (k + x) <-> P x) ->
  count_in Q (k + lo) (k + hi) = count_in P lo hi.
Proof.
  intros HPQ. unfold count_in.
  replace (k + hi - (k + lo)) with (hi - lo) by lia.
  rewrite <- fmap_add_seqZ. by apply length_filter_fmap.
Qed.

Lemma elem_of_ordered_pairs_shift k t p :
  p ∈ ordered_pairs (Z.add k <$> t)
  <-> exists q, q ∈ ordered_pairs t /\ p = (k + q.1, k + q.2).
Proof.
  rewrite elem_of_ordered_pairs. setoid_rewrite elem_of_ordered_pairs.
  setoid_rewrite list_lookup_fmap. setoid_rewrite fmap_Some. split.
  - intros (i & (s & Hs & Hps) & (e & He & Hpe) & Hlt).
    exists (s, e). cbn [fst snd]. split; [|destruct p; cbn in *; congruence].
    exists i. repeat split; (done || lia).
  - intros ([s e] & (i & Hs & He & Hlt) & ->). cbn [fst snd] in *.
    exists i. split; [by exists s|]. split; [by exists e|lia].
Qed.

Lemma covers_ordered_pairs_shift k t x :
  covers (ordered_pairs (Z.add k <$> t)) (k + x) <-> covers (ordered_pairs t) x.
Proof.
  rewrite !covers_iff. setoid_rewrite elem_of_ordered_pairs_shift. split.
  - intros (p & (q & Hq & ->) & Hx). cbn [fst snd] in Hx.
    exists q. split; [done|lia].
  - intros (q & Hq & Hx). exists (k + q.1, k + q.2). cbn [fst snd].
    split; [by exists q|lia].
Qed.

Lemma times_of_shift key k d :
  times_of key (shift_data k d) = Z.add k <$> times_of key d.
Proof.
  unfold times_of, shift_data. rewrite lookup_fmap.
  by destruct (d !! key).
Qed.

End OrchestratorMore.

(** X9. With a valid lesson [lesson[0] < lesson[1]], [appearance] returns
    the number of instants [x] with [lesson[0] <= x < lesson[1]] that lie
    both in a parsed pupil interval and in a parsed tutor interval: the time
    the two spend together inside the lesson, each instant counted once. *)
Theorem appearance_counts_common_presence
    (d : gmap string (list Z)) (a b : Z) (rest : list Z) :
  default [] (d !! "lesson"%string) = a :: b :: rest ->
  a < b ->
  exists instants : list Z,
    appearance d = Ok (Z.of_nat (length instants))
    /\ NoDup instants
    /\ forall x, x ∈ instants
         <-> a <= x < b
             /\ exists p t,
                  p ∈ ordered_pairs (default [] (d !! "pupil"%string))
                  /\ t ∈ ordered_pairs (default [] (d !! "tutor"%string))
                  /\ p.1 <= x < p.2 /\ t.1 <= x < t.2.
Proof.
  intros Hlesson Hlt.
  exists (filter (covered (ordered_pairs (times_of "pupil" d))
                          (ordered_pairs (times_of "tutor" d)))
                 (seqZ a (b - a))).
  split; [exact (appearance_count d a b rest Hlesson Hlt)|].
  split; [apply NoDup_filter, NoDup_seqZ|].
  intros x. rewrite list_elem_of_filter, elem_of_window, covered_iff.
  unfold times_of. tauto.
Qed.

Lemma appearance_counts_common_presence_witness :
  exists instants : list Z,
    appearance (session [0; 100] [10; 50] [20; 40; 30; 60])
    = Ok (Z.of_nat (length instants))
    /\ NoDup instants
    /\ forall x, x ∈ instants
         <-> 0 <= x < 100
             /\ exists p t,
                  p ∈ ordered_pairs
                        (default [] (session [0; 100] [10; 50] [20; 40; 30; 60]
                                       !! "pupil"%string))
                  /\ t ∈ ordered_pairs
                          (default [] (session [0; 100] [10; 50] [20; 40; 30; 60]
                                         !! "tutor"%string))
                  /\ p.1 <= x < p.2 /\ t.1 <= x < t.2.
Proof.
  apply (appearance_counts_common_presence
           (session [0; 100] [10; 50] [20; 40; 30; 60]) 0 100 []);
    [reflexivity|lia].
Defined.

(** X10. The pupil and the tutor play the same part: exchanging their two
    sequences does not change the result. *)
Theorem appearance_swap_pupil_tutor (d d' : gmap string (list Z)) :
  d' !! "lesson"%string = d !! "lesson"%string ->
  d' !! "pupil"%string = d !! "tutor"%string ->
  d' !! "tutor"%string = d !! "pupil"%string ->
  appearance d' = appearance d.
Proof.
  intros Hl Hp Ht.
  assert (times_of "lesson" d' = times_of "lesson" d) as Hl'
    by (unfold times_of; by rewrite Hl).
  assert (times_of "pupil" d' = times_of "tutor" d) as Hp'
    by (unfold times_of; by rewrite Hp).
  assert (times_of "tutor" d' = times_of "pupil" d) as Ht'
    by (unfold times_of; by rewrite Ht).
  destruct (times_of "lesson" d) as [|a [|b rest]] eqn:Hlesson.
  - rewrite !appearance_short_lesson; [done|rewrite ?Hl', ?Hlesson; cbn; lia..].
  - rewrite !appearance_short_lesson; [done|rewrite ?Hl', ?Hlesson; cbn; lia..].
  - rewrite (appearance_lesson d a b rest Hlesson),
            (appearance_lesson d' a b rest Hl'), Hp', Ht'.
    destruct (a >=? b); [done|]. apply overlap_duration_comm.
Qed.

Lemma appearance_swap_pupil_tutor_witness :
  appearance (session [0; 100] [20; 40; 30; 60] [10; 50])
  = appearance (session [0; 100] [10; 50] [20; 40; 30; 60]).
Proof.
  apply appearance_swap_pupil_tutor; reflexivity.
Defined.

(** X11. Only the first two values of [lesson] and the sequences under
    [pupil] and [tutor] are read, an absent key counting as an empty
    sequence: two inputs that agree on these give the same result, whatever
    further lesson values or other keys they hold. *)
Theorem appearance_reads_only_its_inputs (d d' : gmap string (list Z)) :
  take 2 (default [] (d !! "lesson"%string))
  = take 2 (default [] (d' !! "lesson"%string)) ->
  default [] (d !! "pupil"%string) = default [] (d' !! "pupil"%string) ->
  default [] (d !! "tutor"%string) = default [] (d' !! "tutor"%string) ->
  appearance d = appearance d'.
Proof.
  intros Hl Hp Ht. fold (times_of "lesson" d) (times_of "lesson" d') in Hl.
  fold (times_of "pupil" d) (times_of "pupil" d') in Hp.
  fold (times_of "tutor" d) (times_of "tutor" d') in Ht.
  destruct (times_of "lesson" d) as [|a [|b rest]] eqn:Hd;
    destruct (times_of "lesson" d') as [|a' [|b' rest']] eqn:Hd';
    try discriminate Hl.
  - rewrite !appearance_short_lesson; [done|rewrite ?Hd, ?Hd'; cbn; lia..].
  - rewrite !appearance_short_lesson; [done|rewrite ?Hd, ?Hd'; cbn; lia..].
  - injection Hl as -> ->.
    by rewrite (appearance_lesson d a' b' rest Hd),
               (appearance_lesson d' a' b' rest' Hd'), Hp, Ht.
Qed.

Lemma appearance_reads_only_its_inputs_witness :
  appearance (<["note"%string := [1; 2; 3]]>
                (session [10; 20; 35; 2] [0; 30] [5; 25]))
  = appearance (<["lesson"%string := [10; 20]]>
                  (<["pupil"%string := [0; 30]]>
                     (<["tutor"%string := [5; 25]]> ∅))).
Proof.
  apply appearance_reads_only_its_inputs; reflexivity.
Defined.

(** X12. The result does not depend on the origin of time: adding the same
    [k] to every timestamp of the input (epoch seconds or seconds since any
    other instant) leaves it unchanged. *)
Theorem appearance_shift_invariant (k : Z) (d : gmap string (list Z)) :
  appearance (shift_data k d) = appearance d.
Proof.
  pose proof (times_of_shift "lesson" k d) as Hl.
  destruct (times_of "lesson" d) as [|a [|b rest]] eqn:Hlesson; cbn in Hl.
  - rewrite !appearance_short_lesson; [done|rewrite ?Hl, ?Hlesson; cbn; lia..].
  - rewrite !appearance_short_lesson; [done|rewrite ?Hl, ?Hlesson; cbn; lia..].
  - destruct (Z.lt_ge_cases a b) as [Hlt|Hge].
    + rewrite (appearance_count d a b rest Hlesson Hlt).
      rewrite (appearance_count (shift_data k d) (k + a) (k + b) _ Hl)
        by lia.
      do 2 f_equal. apply count_in_shift. intros x.
      rewrite !times_of_shift, !covered_covers, !covers_ordered_pairs_shift.
      done.
    + rewrite (appearance_inverted_lesson d a b rest Hlesson Hge).
      apply (appearance_inverted_lesson _ (k + a) (k + b) _ Hl). lia.
Qed.

(** X13. If some pupil interval and some tutor interval each span the whole
    lesson, the result is the lesson duration [lesson[1] - lesson[0]]. *)
Theorem appearance_full_presence
    (d : gmap string (list Z)) (a b : Z) (rest : list Z) (i j : nat)
    (ps pe ts te : Z) :
  default [] (d !! "lesson"%string) = a :: b :: rest ->
  a < b ->
  default [] (d !! "pupil"%string) !! (2 * i)%nat = Some ps ->
  default [] (d !! "pupil"%string) !! (2 * i + 1)%nat = Some pe ->
  default [] (d !! "tutor"%string) !! (2 * j)%nat = Some ts ->
  default [] (d !! "tutor"%string) !! (2 * j + 1)%nat = Some te ->
  ps <= a -> b <= pe -> ts <= a -> b <= te ->
  appearance d = Ok (b - a).
Proof.
  intros Hlesson Hlt Hps Hpe Hts Hte ? ? ? ?.
  rewrite (appearance_count d a b rest Hlesson Hlt).
  rewrite count_in_full; [f_equal; lia|].
  intros x Hx. apply covered_iff. exists (ps, pe), (ts, te). cbn [fst snd].
  repeat split; try lia.
  - apply elem_of_ordered_pairs. exists i. cbn [fst snd].
    repeat split; (done || lia).
  - apply elem_of_ordered_pairs. exists j. cbn [fst snd].
    repeat split; (done || lia).
Qed.

Lemma appearance_full_presence_witness :
  appearance (session [10; 20] [1; 2; 0; 30] [5; 25]) = Ok (20 - 10).
Proof.
  apply (appearance_full_presence
           (session [10; 20] [1; 2; 0; 30] [5; 25]) 10 20 [] 1 0 0 30 5 25);
    (reflexivity || lia).
Defined.

(** X14. When the sequence under [pupil] or under [tutor] is absent or
    empty, the result is [0]. *)
Theorem appearance_absent_participant (d : gmap string (list Z)) :
  default [] (d !! "pupil"%string) = []
  \/ default [] (d !! "tutor"%string) = [] ->
  appearance d = Ok 0.
Proof.
  intros Hempty.
  fold (times_of "pupil" d) (times_of "tutor" d) in Hempty.
  destruct (times_of "lesson" d) as [|a [|b rest]] eqn:Hlesson.
  - apply appearance_short_lesson. rewrite Hlesson. cbn. lia.
  - apply appearance_short_lesson. rewrite Hlesson. cbn. lia.
  - rewrite (appearance_lesson d a b rest Hlesson).
    destruct (a >=? b); [done|].
    destruct Hempty as [-> | ->].
    + reflexivity.
    + apply overlap_duration_nil_r.
Qed.

Lemma appearance_absent_participant_witness :
  appearance (<["lesson"%string := [0; 100]]>
                (<["tutor"%string := [0; 100]]> ∅)) = Ok 0.
Proof.
  apply appearance_absent_participant. left. reflexivity.
Defined.

(** ** The store of collected names ([task2/solution.py]) *)

Section DataStore.
Context {char : Type} `{Countable char}.
Variable upper : char -> list char.

Implicit Types (self : @AnimalDataStore char _ _) (name letter : list char)
               (names : list (list char)).

Lemma add_names_step_fst self k name :
  (add_names_step upper (self, k) name).1 = add_name upper self name.
Proof.
  unfold add_name, add_names_step. destruct name as [|c0 name']; [done|].
  by case_decide.
Qed.

Lemma add_names_fold self k names :
  (fold_left (add_names_step upper) names (self, k)).1
  = fold_left (add_name upper) names self.
Proof.
  revert self k. induction names as [|name names IH]; intros self k; [done|].
  cbn [fold_left].
  destruct (add_names_step upper (self, k) name) as [self' k'] eqn:Hstep.
  rewrite IH. f_equal.
  by rewrite <- (add_names_step_fst self k name), Hstep.
Qed.

Lemma add_names_as_fold self names :
  add_names upper self names = fold_left (add_name upper) names self.
Proof. apply add_names_fold. Qed.

(** The three ways an iteration can go. *)
Lemma add_name_skip self name :
  name = [] \/ name ∈ _all_collected_names self ->
  add_name upper self name = self.
Proof.
  unfold add_name, add_names_step. destruct name as [|c0 name']; [done|].
  intros [?|Hin]; [done|]. by case_decide.
Qed.

Lemma add_name_new self c0 name' :
  c0 :: name' ∉ _all_collected_names self ->
  add_name upper self (c0 :: name')
  = {| _letter_counts :=
         if decide (upper c0 ∈ _alphabet_chars self)
         then <[upper c0 := count_of (_letter_counts self) (upper c0) + 1]>
                (_letter_counts self)
         else _letter_counts self;
       _alphabet_chars := _alphabet_chars self;
       _all_collected_names := {[c0 :: name']} ∪ _all_collected_names self |}.
Proof. intros Hnew. unfold add_name, add_names_step. by case_decide. Qed.

Lemma add_name_alphabet self name :
  _alphabet_chars (add_name upper self name) = _alphabet_chars self.
Proof.
  destruct name as [|c0 name']; [done|].
  destruct (decide (c0 :: name' ∈ _all_collected_names self)).
  - by rewrite add_name_skip by auto.
  - by rewrite add_name_new.
Qed.

Lemma add_name_collected self name n :
  n ∈ _all_collected_names (add_name upper self name)
  <-> n ∈ _all_collected_names self \/ (n = name /\ name <> []).
Proof.
  destruct name as [|c0 name'].
  - rewrite add_name_skip by auto. naive_solver.
  - destruct (decide (c0 :: name' ∈ _all_collected_names self)).
    + rewrite add_name_skip by auto. naive_solver.
    + rewrite add_name_new by done. cbn. set_solver.
Qed.

Lemma add_names_alphabet self names :
  _alphabet_chars (add_names upper self names) = _alphabet_chars self.
Proof.
  rewrite add_names_as_fold. revert self.
  induction names as [|name names IH]; intros self; [done|].
  cbn [fold_left]. by rewrite IH, add_name_alphabet.
Qed.

Lemma add_names_collected self names n :
  n ∈ _all_collected_names (add_names upper self names)
  <-> n ∈ _all_collected_names self \/ (n ∈ names /\ n <> []).
Proof.
  rewrite add_names_as_fold. revert self.
  induction names as [|name names IH]; intros self; cbn [fold_left].
  - rewrite elem_of_nil. tauto.
  - rewrite IH, add_name_collected, elem_of_cons. naive_solver.
Qed.

Lemma names_under_new letter name X :
  name ∉ X ->
  size (names_under upper letter ({[name]} ∪ X))
  = ((if decide (first_char_upper upper name = Some letter) then 1 else 0)
     + size (names_under upper letter X))%nat.
Proof.
  intros Hnew. unfold names_under. rewrite filter_union_L, size_union.
  - case_decide.
    + rewrite (filter_singleton_True_L
                 (fun n => first_char_upper upper n = Some letter)) by done.
      by rewrite size_singleton.
    + rewrite (filter_singleton_False_L
                 (fun n => first_char_upper upper n = Some letter)) by done.
      by rewrite size_empty.
  - apply disjoint_filter. set_solver.
  - apply _.
Qed.

Lemma add_name_counts_exact self name :
  counts_exact upper self -> counts_exact upper (add_name upper self name).
Proof.
  intros Hexact. destruct name as [|c0 name']; [done|].
  destruct (decide (c0 :: name' ∈ _all_collected_names self)) as [|Hnew].
  { by rewrite add_name_skip by auto. }
  rewrite add_name_new by done. intros letter. cbn.
  specialize (Hexact letter). rewrite names_under_new by done. cbn.
  unfold count_of in *.
  destruct (decide (upper c0 ∈ _alphabet_chars self)) as [Hin|Hout].
  - destruct (decide (upper c0 = letter)) as [Heq|Hne].
    + subst letter. rewrite lookup_insert_eq. cbn. rewrite Hexact.
      rewrite !decide_True by done. lia.
    + rewrite lookup_insert_ne by done. rewrite Hexact.
      case_decide; [|done]. rewrite decide_False by congruence. lia.
  - rewrite Hexact. case_decide as Hl; [|done].
    rewrite decide_False by (intros [= Heq]; by rewrite Heq in Hout). lia.
Qed.

Lemma add_names_counts_exact self names :
  counts_exact upper self -> counts_exact upper (add_names upper self names).
Proof.
  rewrite add_names_as_fold. revert self.
  induction names as [|name names IH]; intros self Hexact; [done|].
  cbn [fold_left]. by apply IH, add_name_counts_exact.
Qed.

Lemma init_counts_exact alphabet_chars :
  counts_exact upper (AnimalDataStore_init alphabet_chars).
Proof.
  intros letter. unfold count_of, names_under. cbn.
  rewrite lookup_empty, filter_empty_L, size_empty; [by case_decide|apply _].
Qed.

Lemma add_names_noop self names :
  (forall n, n ∈ names -> n <> [] -> n ∈ _all_collected_names self) ->
  add_names upper self names = self.
Proof.
  rewrite add_names_as_fold. induction names as [|name names IH]; [done|].
  intros Hall. cbn [fold_left]. rewrite add_name_skip.
  - apply IH. intros n Hn. apply Hall. by right.
  - destruct name as [|c0 name']; [by left|right].
    apply Hall; [left|done].
Qed.

Lemma count_of_insert_ne (m : gmap (list char) Z) u v k :
  u <> v -> count_of (<[v := k]> m) u = count_of m u.
Proof. intros Hne. unfold count_of. by rewrite lookup_insert_ne. Qed.

(** Two iterations of the loop can be exchanged. *)
Lemma add_name_comm self a b :
  add_name upper (add_name upper self a) b
  = add_name upper (add_name upper self b) a.
Proof.
  destruct (decide (a = [] \/ a ∈ _all_collected_names self)) as [Ha|Ha].
  { rewrite (add_name_skip self a Ha). symmetry. apply add_name_skip.
    destruct Ha as [->|Ha]; [by left|right].
    apply add_name_collected. by left. }
  destruct (decide (b = [] \/ b ∈ _all_collected_names self)) as [Hb|Hb].
  { rewrite (add_name_skip self b Hb). apply add_name_skip.
    destruct Hb as [->|Hb]; [by left|right].
    apply add_name_collected. by left. }
  destruct (decide (a = b)) as [->|Hab]; [done|].
  destruct a as [|c a']; [by destruct Ha; left|].
  destruct b as [|d b']; [by destruct Hb; left|].
  assert (c :: a' ∉ _all_collected_names self) as Ha' by tauto.
  assert (d :: b' ∉ _all_collected_names self) as Hb' by tauto.
  rewrite (add_name_new self c a' Ha'), (add_name_new self d b' Hb').
  rewrite !add_name_new by (cbn; set_solver). cbn.
  f_equal; [|set_solver].
  destruct (decide (upper c ∈ _alphabet_chars self)),
           (decide (upper d ∈ _alphabet_chars self)); try done.
  destruct (decide (upper c = upper d)) as [Heq|Hne].
  - by rewrite Heq.
  - rewrite !count_of_insert_ne by done. by apply insert_insert_ne.
Qed.

Lemma add_names_perm self names names' :
  names ≡ₚ names' -> add_names upper self names = add_names upper self names'.
Proof.
  rewrite !add_names_as_fold. intros Hperm. revert self.
  induction Hperm as [|x l l' _ IH|x y l|l l' l'' _ IH1 _ IH2]; intros self.
  - done.
  - cbn [fold_left]. apply IH.
  - cbn [fold_left]. by rewrite add_name_comm.
  - by rewrite IH1.
Qed.

Lemma names_under_restrict letter letter' (Y : gset (list char)) :
  letter <> letter' ->
  names_under upper letter'
    (filter (fun n => ~ first_char_upper upper n = Some letter) Y)
  = names_under upper letter' Y.
Proof.
  intros Hne. unfold names_under. apply set_eq. intros n.
  rewrite !elem_of_filter. split; [tauto|].
  intros [Hn ?]. repeat split; [done| |done]. congruence.
Qed.

Lemma names_under_sum letters : NoDup letters ->
  forall Y : gset (list char),
    (sum_list_with (fun letter => size (names_under upper letter Y)) letters
     <= size Y)%nat.
Proof.
  induction 1 as [|letter letters Hnotin _ IH]; intros Y; cbn; [lia|].
  set (Yc := names_under upper letter Y).
  set (Yn := filter (fun n => ~ first_char_upper upper n = Some letter) Y).
  assert (size Y = size Yc + size Yn)%nat as ->.
  { rewrite <- size_union by apply disjoint_filter_complement.
    unfold Yc, Yn, names_under.
    by rewrite (filter_union_complement_L
                  (fun n => first_char_upper upper n = Some letter) Y Y). }
  apply Nat.add_le_mono_l. etransitivity; [|apply (IH Yn)].
  apply Nat.eq_le_incl. clear IH. induction letters as [|l' letters IHl]; [done|].
  cbn. apply not_elem_of_cons in Hnotin as [Hne Hnotin].
  rewrite IHl by done. f_equal. unfold Yn. by rewrite names_under_restrict.
Qed.

Lemma counts_exact_sum self letters :
  counts_exact upper self ->
  foldr Z.add 0 (count_of (_letter_counts self) <$> letters)
  <= Z.of_nat (sum_list_with
                 (fun letter =>
                    size (names_under upper letter (_all_collected_names self)))
                 letters).
Proof.
  intros Hexact. induction letters as [|letter letters IH]; cbn; [done|].
  rewrite (Hexact letter). case_decide; lia.
Qed.

End DataStore.

Section DataStoreProperties.
Context {char : Type} `{Countable char}.
Variable upper : char -> list char.

Lemma add_names_batches_alphabet (self : @AnimalDataStore char _ _) batches :
  _alphabet_chars (fold_left (add_names upper) batches self)
  = _alphabet_chars self.
Proof.
  revert self. induction batches as [|names batches IH]; intros self; [done|].
  cbn [fold_left]. by rewrite IH, add_names_alphabet.
Qed.

Lemma add_names_batches_counts_exact (self : @AnimalDataStore char _ _) batches :
  counts_exact upper self ->
  counts_exact upper (fold_left (add_names upper) batches self).
Proof.
  revert self. induction batches as [|names batches IH]; intros self ?; [done|].
  cbn [fold_left]. by apply IH, add_names_counts_exact.
Qed.

(** X15. In a store built by [AnimalDataStore(alphabet_chars)] and any
    number of calls of [add_names], the count of a letter of the alphabet is
    the number of distinct collected names whose upper-cased first character
    is that letter, and the count of anything outside the alphabet is [0]. *)
Theorem animal_store_counts_exact
    (alphabet_chars : gset (list char)) (batches : list (list (list char)))
    (letter : list char) :
  let self := fold_left (add_names upper) batches
                        (AnimalDataStore_init alphabet_chars) in
  count_of (get_counts_by_letter self) letter
  = if decide (letter ∈ alphabet_chars)
    then Z.of_nat (size (filter
           (fun name => first_char_upper upper name = Some letter)
           (_all_collected_names self)))
    else 0.
Proof.
  intros self.
  pose proof (add_names_batches_counts_exact
                (AnimalDataStore_init alphabet_chars) batches
                (init_counts_exact upper alphabet_chars) letter) as Hexact.
  fold self in Hexact. unfold get_counts_by_letter. rewrite Hexact.
  unfold self. by rewrite add_names_batches_alphabet.
Qed.

(** X16. After [add_names(names)] the collected names are those collected
    before together with the non-empty names of [names]; the alphabet is
    unchanged. *)
Theorem add_names_collects
    (self : @AnimalDataStore char _ _) (names : list (list char)) :
  (forall n, n ∈ _all_collected_names (add_names upper self names)
             <-> n ∈ _all_collected_names self \/ (n ∈ names /\ n <> []))
  /\ _alphabet_chars (add_names upper self names) = _alphabet_chars self.
Proof.
  split; [intros n; apply add_names_collected|apply add_names_alphabet].
Qed.

(** X17. Adding the same names a second time changes nothing: counts and
    collected names stay as they are after the first call. *)
Theorem add_names_idempotent
    (self : @AnimalDataStore char _ _) (names : list (list char)) :
  add_names upper (add_names upper self names) names
  = add_names upper self names.
Proof.
  apply add_names_noop. intros n Hn Hne.
  apply add_names_collected. by right.
Qed.

(** X18. The order of the names in a call does not matter: a rearranged
    list leaves the store in the same state. *)
Theorem add_names_order_irrelevant
    (self : @AnimalDataStore char _ _) (names names' : list (list char)) :
  names ≡ₚ names' ->
  add_names upper self names = add_names upper self names'.
Proof. apply add_names_perm. Qed.

(** X19. In a store built by [AnimalDataStore(alphabet_chars)] and calls of
    [add_names], the counts read with [get(letter, 0)] over any list of
    distinct letters add up to at most the number of collected names. *)
Theorem animal_store_total_bounded
    (alphabet_chars : gset (list char)) (batches : list (list (list char)))
    (letters : list (list char)) :
  NoDup letters ->
  let self := fold_left (add_names upper) batches
                        (AnimalDataStore_init alphabet_chars) in
  foldr Z.add 0 (count_of (get_counts_by_letter self) <$> letters)
  <= Z.of_nat (size (_all_collected_names self)).
Proof.
  intros Hnodup self. unfold get_counts_by_letter.
  etransitivity.
  - apply (counts_exact_sum upper). apply add_names_batches_counts_exact.
    apply init_counts_exact.
  - apply inj_le. by apply names_under_sum.
Qed.

End DataStoreProperties.

Lemma add_names_order_irrelevant_witness :
  add_names ascii_upper (AnimalDataStore_init {[ [65%nat]; [66%nat] ]})
            [[97; 110; 116]; [66; 101; 101]; []; [97; 110; 116]]%nat
  = add_names ascii_upper (AnimalDataStore_init {[ [65%nat]; [66%nat] ]})
              [[66; 101; 101]; [97; 110; 116]; []; [97; 110; 116]]%nat.
Proof.
  apply add_names_order_irrelevant. apply perm_swap.
Defined.

Lemma animal_store_total_bounded_witness :
  foldr Z.add 0
    (count_of (get_counts_by_letter
                 (fold_left (add_names ascii_upper)
                    [[[97; 110; 116]; [66; 101; 101]]; [[98; 97; 116]; [49]]]%nat
                    (AnimalDataStore_init {[ [65%nat]; [66%nat] ]})))
       <$> [[65%nat]; [66%nat]; [67%nat]])
  <= Z.of_nat (size (_all_collected_names
                 (fold_left (add_names ascii_upper)
                    [[[97; 110; 116]; [66; 101; 101]]; [[98; 97; 116]; [49]]]%nat
                    (AnimalDataStore_init {[ [65%nat]; [66%nat] ]})))).
Proof.
  apply (animal_store_total_bounded ascii_upper).
  apply (bool_decide_unpack _). vm_compute. exact I.
Defined.

Example test_store_counts :
  let self := fold_left (add_names ascii_upper)
                [[[97; 110; 116]; [66; 101; 101]]; [[98; 97; 116]; [49]; []];
                 [[97; 110; 116]]]%nat
                (AnimalDataStore_init {[ [65%nat]; [66%nat] ]}) in
  count_of (get_counts_by_letter self) [65%nat] = 1
  /\ count_of (get_counts_by_letter self) [66%nat] = 2
  /\ count_of (get_counts_by_letter self) [49%nat] = 0
  /\ size (_all_collected_names self) = 4%nat.
Proof. vm_compute. done. Qed.
